(** * My PDF Brain: the ingestion, search, checklist and query engine of app.py

    A shallow embedding of [src/app.py] and the properties its specification
    states about it.

    Python strings are sequences of Unicode code points; they are modelled as
    lists of code points ([N]).  Whitespace is the interpreter's own table
    ([str.isspace]).  Case conversion is modelled on the ASCII letters; every
    other code point is caseless here, and [\d] is the ASCII digits.  The
    DataFrame is the ordered list of its rows. *)

From Stdlib Require Import String Ascii.
From Stdlib Require Import List NArith Arith Bool Lia Sorted Permutation.
From Stdlib Require Decimal DecimalNat.
Import ListNotations.

Set Implicit Arguments.

(* ================================================================== *)
(** * Part I: the embedding *)
(* ================================================================== *)

(** ** Python strings *)

Definition codepoint := N.
Definition str := list codepoint.

(** An ASCII literal as a Python string. *)
Definition py (s : string) : str := map N_of_ascii (list_ascii_of_string s).

(** Truth value of a string: [if s:] holds exactly for the non-empty ones. *)
Definition truthy (s : str) : bool :=
  match s with [] => false | _ :: _ => true end.

(** [str.isspace] on one code point. *)
Definition isspace (c : codepoint) : bool :=
  ((9 <=? c) && (c <=? 13) || (28 <=? c) && (c <=? 32) || (c =? 133)
   || (c =? 160) || (c =? 5760) || (8192 <=? c) && (c <=? 8202) || (c =? 8232)
   || (c =? 8233) || (c =? 8239) || (c =? 8287) || (c =? 12288))%N.

Definition lower_cp (c : codepoint) : codepoint :=
  (if (65 <=? c) && (c <=? 90) then c + 32 else c)%N.

Definition upper_cp (c : codepoint) : codepoint :=
  (if (97 <=? c) && (c <=? 122) then c - 32 else c)%N.

(** [s.lower()], [s.upper()], [s.capitalize()]. *)
Definition str_lower (s : str) : str := map lower_cp s.
Definition str_upper (s : str) : str := map upper_cp s.

(** [s.startswith(p)]. *)
Fixpoint startswith (p s : str) : bool :=
  match p, s with
  | [], _ => true
  | _ :: _, [] => false
  | a :: p', b :: s' => (a =? b)%N && startswith p' s'
  end.

(** [p in s]: some position of [s] starts with [p]. *)
Fixpoint str_in (p s : str) : bool :=
  startswith p s ||
  match s with
  | [] => false
  | _ :: s' => str_in p s'
  end.

(** [s.strip()]: whitespace removed at both ends. *)
Fixpoint lstrip (s : str) : str :=
  match s with
  | [] => []
  | c :: s' => if isspace c then lstrip s' else s
  end.

Definition rstrip (s : str) : str := rev (lstrip (rev s)).
Definition strip (s : str) : str := rstrip (lstrip s).

(** [s.split(sep)] for a one-character separator, given as a test on code
    points: the fields between separators, empty ones included. *)
Fixpoint split_on (sep : codepoint -> bool) (s : str) : list str :=
  match s with
  | [] => [[]]
  | c :: s' =>
      if sep c then [] :: split_on sep s'
      else match split_on sep s' with
           | [] => [[c]]
           | f :: fs => (c :: f) :: fs
           end
  end.

Definition is_newline (c : codepoint) : bool := (c =? 10)%N.

(** [s.split()]: the scan of the interpreter, which skips runs of whitespace
    and collects the runs in between; [cur] is the word being collected. *)
Fixpoint split_scan (cur : str) (s : str) : list str :=
  match s with
  | [] => if truthy cur then [cur] else []
  | c :: s' =>
      if isspace c
      then (if truthy cur then cur :: split_scan [] s' else split_scan [] s')
      else split_scan (cur ++ [c]) s'
  end.

Definition str_split (s : str) : list str := split_scan [] s.



(** [enumerate(l)], from a start index. *)
Fixpoint enumerate_from {A : Type} (i : nat) (l : list A) : list (nat * A) :=
  match l with
  | [] => []
  | x :: l' => (i, x) :: enumerate_from (S i) l'
  end.

Definition enumerate {A : Type} (l : list A) : list (nat * A) :=
  enumerate_from 0 l.

(** ** The record model: one DataFrame row per non-empty line *)

Record LineRecord := mkLine {
  File : str;
  Page : nat;
  Line_Index : nat;
  Content : str;
  Full_Page_Text : str
}.

Definition DataFrame := list LineRecord.

(** ** Uploaded documents as the extraction sees them *)

(** The message of a raised exception. *)
Definition exn := str.

(** What [page.extract_text()] does on one page. *)
Inductive page_extract :=
| ExtractText (text : str)
| ExtractNone
| ExtractRaises (e : exn).

(** What [PyPDF2.PdfReader(uploaded_file)] does: it raises, or gives pages. *)
Inductive pdf_reader :=
| Unreadable (e : exn)
| Readable (pages : list page_extract).

Record UploadedFile := mkUpload {
  name : str;
  reader : pdf_reader
}.

(** ** load_and_parse_pdfs (lines 40-70) *)

(** Lines 58-66: the loop over the lines of one page. *)
Fixpoint append_lines (file_name : str) (page_no : nat) (text : str)
    (lines : list (nat * str)) (data : DataFrame) : DataFrame :=
  match lines with
  | [] => data
  | (line_idx, line) :: rest =>
      let data' :=
        if truthy (strip line)
        then data ++ [mkLine file_name page_no line_idx (strip line) text]
        else data in
      append_lines file_name page_no text rest data'
  end.

(** Lines 52-66: the loop over the pages of one document.  [data] is the list
    being appended to; what was appended before an exception stays in it. *)
Fixpoint parse_pages (file_name : str) (i : nat) (pages : list page_extract)
    (data : DataFrame) : DataFrame * option exn :=
  match pages with
  | [] => (data, None)
  | ExtractRaises e :: _ => (data, Some e)
  | ExtractNone :: rest => parse_pages file_name (S i) rest data
  | ExtractText text :: rest =>
      if truthy text
      then parse_pages file_name (S i) rest
             (append_lines file_name (i + 1) text
                (enumerate (split_on is_newline text)) data)
      else parse_pages file_name (S i) rest data
  end.

(** Lines 49-66: the body of the [try]. *)
Definition parse_file (uploaded_file : UploadedFile) (data : DataFrame)
  : DataFrame * option exn :=
  match reader uploaded_file with
  | Unreadable e => (data, Some e)
  | Readable pages => parse_pages (name uploaded_file) 0 pages data
  end.

(** Line 68: the text handed to [st.error]. *)
Definition error_message (uploaded_file : UploadedFile) (e : exn) : str :=
  py "Error reading " ++ name uploaded_file ++ py ": " ++ e.

(** Lines 47-68: the loop over the uploaded files; the state is the list
    [data] and the error messages displayed so far. *)
Fixpoint load_loop (uploaded_files : list UploadedFile)
    (st : DataFrame * list str) : DataFrame * list str :=
  match uploaded_files with
  | [] => st
  | f :: rest =>
      match parse_file f (fst st) with
      | (data', None) => load_loop rest (data', snd st)
      | (data', Some e) => load_loop rest (data', snd st ++ [error_message f e])
      end
  end.

(** The DataFrame returned, together with the errors displayed. *)
Definition load_and_parse_pdfs (uploaded_files : list UploadedFile)
  : DataFrame * list str :=
  load_loop uploaded_files ([], []).

Definition corpus_of (uploaded_files : list UploadedFile) : DataFrame :=
  fst (load_and_parse_pdfs uploaded_files).

Definition errors_of (uploaded_files : list UploadedFile) : list str :=
  snd (load_and_parse_pdfs uploaded_files).

(** ** Regular expressions, as far as the source uses them *)

Inductive regex :=
| Void
| Eps
| Lit (c : codepoint)
| Digit
| Cat (r1 r2 : regex)
| Alt (r1 r2 : regex)
| Plus (r : regex).

(** A pattern is its body and whether it opens with the anchor [^], the only
    anchor of the source's pattern. *)
Record re_pattern := mkPattern {
  anchored : bool;
  body : regex
}.

(** [\d]. *)
Definition is_digit (c : codepoint) : bool := ((48 <=? c) && (c <=? 57))%N.

(** A literal of the pattern against a code point of the text; [ignorecase]
    is the flag [re.IGNORECASE]. *)
Definition lit_eq (ignorecase : bool) (a b : codepoint) : bool :=
  if ignorecase then (lower_cp a =? lower_cp b)%N else (a =? b)%N.

Fixpoint nullable (r : regex) : bool :=
  match r with
  | Void => false
  | Eps => true
  | Lit _ => false
  | Digit => false
  | Cat r1 r2 => nullable r1 && nullable r2
  | Alt r1 r2 => nullable r1 || nullable r2
  | Plus r1 => nullable r1
  end.

(** What is left of [r] to match once the code point [c] is read. *)
Fixpoint deriv (ignorecase : bool) (c : codepoint) (r : regex) : regex :=
  match r with
  | Void => Void
  | Eps => Void
  | Lit a => if lit_eq ignorecase a c then Eps else Void
  | Digit => if is_digit c then Eps else Void
  | Cat r1 r2 =>
      if nullable r1
      then Alt (Cat (deriv ignorecase c r1) r2) (deriv ignorecase c r2)
      else Cat (deriv ignorecase c r1) r2
  | Alt r1 r2 => Alt (deriv ignorecase c r1) (deriv ignorecase c r2)
  | Plus r1 =>
      Alt (deriv ignorecase c r1) (Cat (deriv ignorecase c r1) (Plus r1))
  end.

(** [pattern.match(s) is not None]: a prefix of [s] matches. *)
Fixpoint prefix_match (ignorecase : bool) (r : regex) (s : str) : bool :=
  nullable r ||
  match s with
  | [] => false
  | c :: s' => prefix_match ignorecase (deriv ignorecase c r) s'
  end.

Fixpoint search_from (ignorecase : bool) (r : regex) (s : str) : bool :=
  prefix_match ignorecase r s ||
  match s with
  | [] => false
  | _ :: s' => search_from ignorecase r s'
  end.

(** [pattern.search(s) is not None]. *)
Definition re_search (ignorecase : bool) (p : re_pattern) (s : str) : bool :=
  if anchored p
  then prefix_match ignorecase (body p) s
  else search_from ignorecase (body p) s.

(** A word of the pattern, code point by code point. *)
Fixpoint lits (s : str) : regex :=
  match s with
  | [] => Eps
  | c :: s' => Cat (Lit c) (lits s')
  end.

(** ** pandas [Series.str.contains] *)

(** [str.contains(pat, case=case, regex=True)]. *)
Definition str_contains_regex (case : bool) (pat : re_pattern) (s : str)
  : bool :=
  re_search (negb case) pat s.

(** [str.contains(pat, case=case, regex=False)]: without case, pandas
    compares the upper-cased pattern with the upper-cased text. *)
Definition str_contains_literal (case : bool) (pat : str) (s : str) : bool :=
  if case then str_in pat s else str_in (str_upper pat) (str_upper s).

(** ** extract_action_items (lines 72-81) *)

Definition ballot_box : codepoint := 9744%N.
Definition ballot_box_checked : codepoint := 9745%N.
Definition check_mark : codepoint := 10003%N.
Definition bullet : codepoint := 8226%N.

(** Line 78: [^(Step \d+|Action|☐|☑|✓|•|Rule \d+|Metric)]. *)
Definition pattern : re_pattern :=
  mkPattern true
    (Alt (Cat (lits (py "Step ")) (Plus Digit))
    (Alt (lits (py "Action"))
    (Alt (Lit ballot_box)
    (Alt (Lit ballot_box_checked)
    (Alt (Lit check_mark)
    (Alt (Lit bullet)
    (Alt (Cat (lits (py "Rule ")) (Plus Digit))
         (lits (py "Metric"))))))))).

Definition is_action (content : str) : bool :=
  str_contains_regex false pattern content.

Definition extract_action_items (df : DataFrame) : DataFrame :=
  filter (fun row => is_action (Content row)) df.

(** ** Global search (lines 144-155) *)

(** Lines 144-146.  Under a falsy query the branch is not entered and no
    match is produced. *)
Definition search (df : DataFrame) (query : str) : DataFrame :=
  if truthy query
  then filter (fun row => str_contains_literal false query (Content row)) df
  else [].



(** ** Chat/Query (lines 193-217) *)

(** A row of [df[['File', 'Page', 'Full_Page_Text']]]. *)
Definition page_row := (str * nat * str)%type.

Definition page_cols (row : LineRecord) : page_row :=
  (File row, Page row, Full_Page_Text row).

Fixpoint str_eqb (a b : str) : bool :=
  match a, b with
  | [], [] => true
  | x :: a', y :: b' => (x =? y)%N && str_eqb a' b'
  | _, _ => false
  end.

Definition page_row_eqb (a b : page_row) : bool :=
  let '(f1, p1, t1) := a in
  let '(f2, p2, t2) := b in
  str_eqb f1 f2 && (p1 =? p2) && str_eqb t1 t2.

(** [drop_duplicates()]: the first of equal rows is kept. *)
Fixpoint drop_duplicates_from (seen rows : list page_row) : list page_row :=
  match rows with
  | [] => []
  | x :: rest =>
      if existsb (page_row_eqb x) seen
      then drop_duplicates_from seen rest
      else x :: drop_duplicates_from (x :: seen) rest
  end.

Definition drop_duplicates (rows : list page_row) : list page_row :=
  drop_duplicates_from [] rows.

Record Result := mkResult {
  r_File : str;
  r_Page : nat;
  Text : str;
  Score : nat
}.

(** Lines 202-206: the loop over the query tokens. *)
Definition page_score (query_tokens : list str) (text_lower : str) : nat :=
  fold_left
    (fun score token => if str_in token text_lower then score + 1 else score)
    query_tokens 0.

(** Lines 201-214: one round of the loop over the unique pages. *)
Definition score_row (query_tokens : list str) (results : list Result)
    (row : page_row) : list Result :=
  let '(file, page, full_page_text) := row in
  let score := page_score query_tokens (str_lower full_page_text) in
  if 0 <? score
  then results ++ [mkResult file page full_page_text score]
  else results.

(** [sorted(results, key=lambda x: x['Score'], reverse=True)]: a stable sort,
    the higher score first. *)
Fixpoint insert_by_score (x : Result) (l : list Result) : list Result :=
  match l with
  | [] => [x]
  | y :: l' =>
      if Score x <? Score y then y :: insert_by_score x l' else x :: l
  end.

Definition sorted_reverse (results : list Result) : list Result :=
  fold_right insert_by_score [] results.

(** Lines 193-217.  Under a falsy query the branch is not entered. *)
Definition rank (df : DataFrame) (user_query : str) : list Result :=
  if truthy user_query
  then
    let unique_pages := drop_duplicates (map page_cols df) in
    let query_tokens := str_split (str_lower user_query) in
    let results := fold_left (score_row query_tokens) unique_pages [] in
    sorted_reverse results
  else [].

(** The result the loop builds for one unique page, whatever its score. *)
Definition scored (query_tokens : list str) (row : page_row) : Result :=
  let '(file, page, full_page_text) := row in
  mkResult file page full_page_text
    (page_score query_tokens (str_lower full_page_text)).

(** The page a result stands for. *)
Definition result_page (r : Result) : page_row := (r_File r, r_Page r, Text r).

(** [l.index(x)], with [len(l)] where Python raises. *)
Fixpoint index_of (x : page_row) (l : list page_row) : nat :=
  match l with
  | [] => 0
  | y :: l' => if page_row_eqb x y then 0 else S (index_of x l')
  end.

(** ** The words of the specification *)

(** [p] occurs in [s] as a literal substring. *)
Definition occurs (p s : str) : Prop := exists u v, s = u ++ p ++ v.

(** Two strings are equal up to the case of their letters. *)
Definition eq_nocase (a b : str) : Prop := str_lower a = str_lower b.

(** [p] occurs in [s] up to case. *)
Definition occurs_nocase (p s : str) : Prop :=
  exists u m v, s = u ++ m ++ v /\ eq_nocase m p.

Definition whitespace_only (s : str) : Prop :=
  Forall (fun c => isspace c = true) s.



(** [a] comes before [b] in [l]. *)
Definition before {A : Type} (a b : A) (l : list A) : Prop :=
  exists l1 l2 l3, l = l1 ++ a :: l2 ++ b :: l3.


(** [counts P l n]: [n] is the number of positions of [l] that satisfy [P]. *)
Inductive counts (P : str -> Prop) : list str -> nat -> Prop :=
| counts_nil : counts P [] 0
| counts_hit t l n : P t -> counts P l n -> counts P (t :: l) (S n)
| counts_miss t l n : ~ P t -> counts P l n -> counts P (t :: l) n.

(** The language of a regular expression; [ic] is [re.IGNORECASE]. *)
Inductive Matches (ic : bool) : regex -> str -> Prop :=
| MEps : Matches ic Eps []
| MLit a c : lit_eq ic a c = true -> Matches ic (Lit a) [c]
| MDigit c : is_digit c = true -> Matches ic Digit [c]
| MCat r1 r2 w1 w2 :
    Matches ic r1 w1 -> Matches ic r2 w2 -> Matches ic (Cat r1 r2) (w1 ++ w2)
| MAltL r1 r2 w : Matches ic r1 w -> Matches ic (Alt r1 r2) w
| MAltR r1 r2 w : Matches ic r2 w -> Matches ic (Alt r1 r2) w
| MPlusOne r w : Matches ic r w -> Matches ic (Plus r) w
| MPlusMore r w1 w2 :
    Matches ic r w1 -> Matches ic (Plus r) w2 -> Matches ic (Plus r) (w1 ++ w2).

(** The content begins with [marker], up to case. *)
Definition begins_nocase (marker content : str) : Prop :=
  exists w rest, content = w ++ rest /\ eq_nocase w marker.

(** The content begins with [marker], up to case, and a digit follows. *)
Definition begins_numbered (marker content : str) : Prop :=
  exists w d rest,
    content = w ++ d :: rest /\ eq_nocase w marker /\ is_digit d = true.

(** The content begins with the glyph [g] itself. *)
Definition begins_glyph (g : codepoint) (content : str) : Prop :=
  exists rest, content = g :: rest.

(** The record [r] is a non-empty line of a page of the document [f]: the
    page [j + 1] gave the text [text], and [r] holds the trimmed line at
    position [idx] of its split. *)
Definition extracted_from (f : UploadedFile) (r : LineRecord) : Prop :=
  exists pages j text idx line,
    reader f = Readable pages /\
    nth_error pages j = Some (ExtractText text) /\
    nth_error (split_on is_newline text) idx = Some line /\
    truthy (strip line) = true /\
    r = mkLine (name f) (j + 1) idx (strip line) text.

(** The fixed markers of the Action Classifier. *)
Definition begins_with_marker (content : str) : Prop :=
  begins_numbered (py "Step ") content \/
  begins_nocase (py "Action") content \/
  begins_glyph ballot_box content \/
  begins_glyph ballot_box_checked content \/
  begins_glyph check_mark content \/
  begins_glyph bullet content \/
  begins_numbered (py "Rule ") content \/
  begins_nocase (py "Metric") content.

(** ** Reader (lines 124-133) *)

(** Line 126: [df[df['File'] == selected_file]]. *)
Definition file_rows (df : DataFrame) (selected_file : str) : DataFrame :=
  filter (fun row => str_eqb (File row) selected_file) df.

(** Line 127: [file_data['Page'].max()]; there is none on an empty frame. *)
Definition max_page (file_data : DataFrame) : option nat :=
  match file_data with
  | [] => None
  | row :: rest => Some (fold_left Nat.max (map Page rest) (Page row))
  end.

(** Line 133: the page text of the first row of the selected page.  [None]
    is the [IndexError] of [.iloc[0]] on an empty selection. *)
Definition page_content (df : DataFrame) (selected_file : str)
    (page_num : nat) : option str :=
  match filter (fun row => Page row =? page_num) (file_rows df selected_file)
  with
  | [] => None
  | row :: _ => Some (Full_Page_Text row)
  end.

(** ** Interactive checklist (lines 165-175) *)

(** Lines 165-170: the actions, narrowed to one source unless the selection
    is the entry ["All"]. *)
Definition checklist (df : DataFrame) (filter_file : str) : DataFrame :=
  let actions := extract_action_items df in
  if negb (str_eqb filter_file (py "All"))
  then filter (fun row => str_eqb (File row) filter_file) actions
  else actions.

(** [str(n)] for a non-negative integer: its decimal digits. *)
Fixpoint str_of_uint (u : Decimal.uint) : str :=
  match u with
  | Decimal.Nil => []
  | Decimal.D0 u' => 48%N :: str_of_uint u'
  | Decimal.D1 u' => 49%N :: str_of_uint u'
  | Decimal.D2 u' => 50%N :: str_of_uint u'
  | Decimal.D3 u' => 51%N :: str_of_uint u'
  | Decimal.D4 u' => 52%N :: str_of_uint u'
  | Decimal.D5 u' => 53%N :: str_of_uint u'
  | Decimal.D6 u' => 54%N :: str_of_uint u'
  | Decimal.D7 u' => 55%N :: str_of_uint u'
  | Decimal.D8 u' => 56%N :: str_of_uint u'
  | Decimal.D9 u' => 57%N :: str_of_uint u'
  end.

Definition str_int (n : nat) : str := str_of_uint (Nat.to_uint n).

Definition underscore : codepoint := 95%N.

(** Line 175: [f"{row['File']}_{row['Page']}_{row['Line_Index']}"]. *)
Definition checkbox_key (row : LineRecord) : str :=
  File row ++ py "_" ++ str_int (Page row) ++ py "_" ++
  str_int (Line_Index row).

(** ** What the Chat/Query mode displays (lines 219-226) *)



(** ** How main starts (lines 96-110) *)

Inductive startup :=
| Welcome
| CouldNotExtract
| Ready (df : DataFrame).

(** Lines 96-110: the welcome page without uploads, the error when the
    DataFrame is empty, the modes otherwise. *)
Definition main_startup (uploaded_files : list UploadedFile) : startup :=
  match uploaded_files with
  | [] => Welcome
  | _ :: _ =>
      match corpus_of uploaded_files with
      | [] => CouldNotExtract
      | row :: rows => Ready (row :: rows)
      end
  end.

(** ** Further words for the properties *)

Definition page_raises (p : page_extract) : bool :=
  match p with
  | ExtractRaises _ => true
  | _ => false
  end.

(** The document fails: it cannot be opened, or one of its pages raises. *)
Definition file_fails (f : UploadedFile) : bool :=
  match reader f with
  | Unreadable _ => true
  | Readable pages => existsb page_raises pages
  end.

(** The record [r] is a non-empty line of a page of [f] that the loop
    reaches: no page before it raises. *)
Definition reached_line (f : UploadedFile) (r : LineRecord) : Prop :=
  exists pages j text idx line,
    reader f = Readable pages /\
    nth_error pages j = Some (ExtractText text) /\
    existsb page_raises (firstn j pages) = false /\
    nth_error (split_on is_newline text) idx = Some line /\
    truthy (strip line) = true /\
    r = mkLine (name f) (j + 1) idx (strip line) text.

(** Reading order within a document: by page, then by line. *)
Definition position_lt (a b : LineRecord) : Prop :=
  Page a < Page b \/ (Page a = Page b /\ Line_Index a < Line_Index b).



(** The page [j] of the document [f] is read and gives the text [text]. *)
Definition page_read (f : UploadedFile) (j : nat) (text : str) : Prop :=
  exists pages,
    reader f = Readable pages /\
    nth_error pages j = Some (ExtractText text) /\
    existsb page_raises (firstn j pages) = false.

(** ** Sample uploads *)

Definition doc_A : UploadedFile :=
  mkUpload (py "A.pdf")
    (Readable [ExtractText (py "focus and dopamine drive habit")]).

Definition doc_B : UploadedFile :=
  mkUpload (py "B.pdf") (Readable [ExtractText (py "unrelated content only")]).

Definition doc_corrupt : UploadedFile :=
  mkUpload (py "broken.pdf") (Unreadable (py "EOF marker not found")).



Definition doc_C : UploadedFile :=
  mkUpload (py "C.pdf")
    (Readable [ExtractText (py "Dopamine release"); ExtractText (py "axb")]).

Definition doc_D : UploadedFile :=
  mkUpload (py "D.pdf") (Readable [ExtractText (py "habit habit habit")]).

Definition line_A : LineRecord :=
  mkLine (py "A.pdf") 1 0 (py "focus and dopamine drive habit")
    (py "focus and dopamine drive habit").

Definition line_B : LineRecord :=
  mkLine (py "B.pdf") 1 0 (py "unrelated content only")
    (py "unrelated content only").

Definition line_C1 : LineRecord :=
  mkLine (py "C.pdf") 1 0 (py "Dopamine release") (py "Dopamine release").

Definition line_C2 : LineRecord :=
  mkLine (py "C.pdf") 2 0 (py "axb") (py "axb").



(* ================================================================== *)
(** * Part II: properties *)
(* ================================================================== *)

(** ** Strings *)

Lemma truthy_true (s : str) : truthy s = true <-> s <> [].
Proof. destruct s; simpl; split; congruence. Qed.

Lemma truthy_false (s : str) : truthy s = false <-> s = [].
Proof. destruct s; simpl; split; congruence. Qed.

Lemma startswith_spec (p s : str) :
  startswith p s = true <-> exists v, s = p ++ v.
Proof.
  revert s; induction p as [|a p IH]; intros s; simpl.
  - split; [exists s; reflexivity | reflexivity].
  - destruct s as [|b s].
    + split; [discriminate | intros [v H]; discriminate].
    + rewrite andb_true_iff, N.eqb_eq, IH. split.
      * intros [-> [v ->]]. exists v; reflexivity.
      * intros [v H]. injection H as -> ->. split; [reflexivity | eauto].
Qed.


Lemma str_in_spec (p s : str) : str_in p s = true <-> occurs p s.
Proof.
  unfold occurs; induction s as [|c s IH].
  - simpl. rewrite orb_false_r, startswith_spec. split.
    + intros [v H]. exists [], v. exact H.
    + intros [u [v H]]. destruct u; simpl in H.
      * eauto.
      * discriminate.
  - cbn [str_in]. rewrite orb_true_iff, IH, startswith_spec. split.
    + intros [[v H] | [u [v H]]].
      * exists [], v. exact H.
      * exists (c :: u), v. simpl. now rewrite H.
    + intros [u [v H]]. destruct u as [|d u]; simpl in H.
      * left; eauto.
      * right. injection H as _ H. eauto.
Qed.



Lemma occurs_refl (p : str) : occurs p p.
Proof. exists [], []. now rewrite app_nil_r. Qed.

Lemma occurs_app_l (p s t : str) : occurs p s -> occurs p (t ++ s).
Proof.
  intros [u [v ->]]. exists (t ++ u), v. now rewrite <- app_assoc.
Qed.

Lemma occurs_app_r (p s t : str) : occurs p s -> occurs p (s ++ t).
Proof.
  intros [u [v ->]]. exists u, (v ++ t). now rewrite <- !app_assoc.
Qed.

Lemma occurs_trans (p q s : str) : occurs p q -> occurs q s -> occurs p s.
Proof.
  intros [u [v ->]] [u' [v' ->]].
  exists (u' ++ u), (v ++ v'). now rewrite <- !app_assoc.
Qed.

Lemma occurs_length (p s : str) : occurs p s -> length p <= length s.
Proof. intros [u [v ->]]. rewrite !length_app. lia. Qed.

(** ** Whitespace and trimming *)

Lemma lstrip_head (s : str) :
  lstrip s = [] \/ exists c rest, lstrip s = c :: rest /\ isspace c = false.
Proof.
  induction s as [|c s IH]; simpl.
  - now left.
  - destruct (isspace c) eqn:E; [exact IH | right; eauto].
Qed.

Lemma rstrip_last (s : str) :
  rstrip s = [] \/ exists c front, rstrip s = front ++ [c] /\ isspace c = false.
Proof.
  unfold rstrip. destruct (lstrip_head (rev s)) as [-> | [c [rest [-> Hc]]]].
  - now left.
  - right. exists c, (rev rest). simpl. auto.
Qed.

Lemma strip_not_whitespace (line : str) :
  truthy (strip line) = true -> ~ whitespace_only (strip line).
Proof.
  unfold strip, whitespace_only.
  destruct (rstrip_last (lstrip line)) as [-> | [c [front [-> Hc]]]].
  - discriminate.
  - intros _ H. apply Forall_app in H as [_ H].
    inversion H; subst. congruence.
Qed.

Lemma lstrip_fixed (c : codepoint) (s : str) :
  isspace c = false -> lstrip (c :: s) = c :: s.
Proof. intros H. simpl. now rewrite H. Qed.

Lemma lstrip_idempotent (s : str) : lstrip (lstrip s) = lstrip s.
Proof.
  destruct (lstrip_head s) as [-> | [c [rest [-> Hc]]]].
  - reflexivity.
  - now apply lstrip_fixed.
Qed.

Lemma lstrip_snoc (c : codepoint) (s : str) :
  isspace c = false -> lstrip (s ++ [c]) = lstrip s ++ [c].
Proof.
  intros Hc. induction s as [|d s IH]; simpl.
  - now rewrite Hc.
  - destruct (isspace d); [exact IH | reflexivity].
Qed.

Lemma rstrip_cons (c : codepoint) (s : str) :
  isspace c = false -> rstrip (c :: s) = c :: rstrip s.
Proof.
  intros Hc. unfold rstrip. simpl.
  rewrite lstrip_snoc by assumption. rewrite rev_app_distr. reflexivity.
Qed.

Lemma rstrip_idempotent (s : str) : rstrip (rstrip s) = rstrip s.
Proof.
  unfold rstrip. now rewrite rev_involutive, lstrip_idempotent.
Qed.

(** A trimmed string is left as it is by another trim. *)
Lemma strip_idempotent (s : str) : strip (strip s) = strip s.
Proof.
  unfold strip.
  destruct (lstrip_head s) as [-> | [c [rest [-> Hc]]]].
  - reflexivity.
  - rewrite (rstrip_cons c rest Hc), (lstrip_fixed c (rstrip rest) Hc).
    rewrite <- (rstrip_cons c rest Hc). apply rstrip_idempotent.
Qed.

(** ** The Corpus Builder only appends *)

Lemma append_lines_app fn p text lines (d : DataFrame) :
  append_lines fn p text lines d = d ++ append_lines fn p text lines [].
Proof.
  revert d; induction lines as [|[idx line] rest IH]; intros d; simpl.
  - now rewrite app_nil_r.
  - destruct (truthy (strip line)).
    + rewrite IH. rewrite (IH [_]). now rewrite <- app_assoc.
    + apply IH.
Qed.

Lemma parse_pages_app fn pages : forall i (d : DataFrame),
  parse_pages fn i pages d =
  (d ++ fst (parse_pages fn i pages []), snd (parse_pages fn i pages [])).
Proof.
  induction pages as [|pg rest IH]; intros i d; simpl.
  - now rewrite app_nil_r.
  - destruct pg as [text | | e].
    + destruct (truthy text).
      * rewrite IH. rewrite (IH _ (append_lines _ _ _ _ [])). simpl.
        rewrite (append_lines_app _ _ _ _ d). now rewrite <- app_assoc.
      * apply IH.
    + apply IH.
    + simpl. now rewrite app_nil_r.
Qed.

Lemma parse_file_app f (d : DataFrame) :
  parse_file f d = (d ++ fst (parse_file f []), snd (parse_file f [])).
Proof.
  unfold parse_file. destruct (reader f).
  - simpl. now rewrite app_nil_r.
  - apply parse_pages_app.
Qed.

Lemma load_loop_state fs : forall (d : DataFrame) (errs : list str),
  load_loop fs (d, errs) =
  (d ++ fst (load_loop fs ([], [])), errs ++ snd (load_loop fs ([], []))).
Proof.
  induction fs as [|f rest IH]; intros d errs; simpl.
  - now rewrite !app_nil_r.
  - rewrite (parse_file_app f d).
    destruct (parse_file f []) as [d' [e|]]; simpl.
    + rewrite IH. rewrite (IH d' [_]). simpl.
      now rewrite <- !app_assoc.
    + rewrite IH. rewrite (IH d' []). simpl.
      now rewrite <- !app_assoc.
Qed.

Lemma load_loop_app fs1 fs2 : forall st,
  load_loop (fs1 ++ fs2) st = load_loop fs2 (load_loop fs1 st).
Proof.
  induction fs1 as [|f rest IH]; intros st; simpl.
  - reflexivity.
  - destruct (parse_file f (fst st)) as [d' [e|]]; apply IH.
Qed.

Lemma corpus_of_app fs1 fs2 :
  corpus_of (fs1 ++ fs2) = corpus_of fs1 ++ corpus_of fs2.
Proof.
  unfold corpus_of, load_and_parse_pdfs. rewrite load_loop_app.
  destruct (load_loop fs1 ([], [])) as [d errs].
  now rewrite load_loop_state.
Qed.

Lemma errors_of_app fs1 fs2 :
  errors_of (fs1 ++ fs2) = errors_of fs1 ++ errors_of fs2.
Proof.
  unfold errors_of, load_and_parse_pdfs. rewrite load_loop_app.
  destruct (load_loop fs1 ([], [])) as [d errs].
  now rewrite load_loop_state.
Qed.

Lemma corpus_of_cons f fs :
  corpus_of (f :: fs) = fst (parse_file f []) ++ corpus_of fs.
Proof.
  unfold corpus_of, load_and_parse_pdfs. simpl.
  destruct (parse_file f []) as [d' [e|]]; now rewrite load_loop_state.
Qed.

Lemma errors_of_cons f fs :
  errors_of (f :: fs) =
  match snd (parse_file f []) with
  | Some e => error_message f e :: errors_of fs
  | None => errors_of fs
  end.
Proof.
  unfold errors_of, load_and_parse_pdfs. simpl.
  destruct (parse_file f []) as [d' [e|]]; now rewrite load_loop_state.
Qed.

(** ** Where a record of the corpus comes from *)

Lemma in_enumerate_from {A : Type} (l : list A) : forall k idx (x : A),
  In (idx, x) (enumerate_from k l) ->
  k <= idx /\ nth_error l (idx - k) = Some x.
Proof.
  induction l as [|y l IH]; intros k idx x; simpl.
  - intros [].
  - intros [H | H].
    + injection H as -> ->. rewrite Nat.sub_diag. split; [lia | reflexivity].
    + apply IH in H as [Hle Hn]. split; [lia|].
      replace (idx - k) with (S (idx - S k)) by lia. exact Hn.
Qed.

Lemma in_append_lines fn p text lines r :
  In r (append_lines fn p text lines []) ->
  exists idx line,
    In (idx, line) lines /\ truthy (strip line) = true /\
    r = mkLine fn p idx (strip line) text.
Proof.
  induction lines as [|[idx line] rest IH]; simpl.
  - intros [].
  - destruct (truthy (strip line)) eqn:E.
    + rewrite append_lines_app. simpl. intros [H | H].
      * exists idx, line. auto.
      * apply IH in H as [i [l [H1 H2]]]. exists i, l. auto.
    + intros H. apply IH in H as [i [l [H1 H2]]]. exists i, l. auto.
Qed.

Lemma in_parse_pages fn pages r : forall i,
  In r (fst (parse_pages fn i pages [])) ->
  exists j text idx line,
    nth_error pages j = Some (ExtractText text) /\
    nth_error (split_on is_newline text) idx = Some line /\
    truthy (strip line) = true /\
    r = mkLine fn (i + j + 1) idx (strip line) text.
Proof.
  induction pages as [|pg rest IH]; intros i; simpl.
  - intros [].
  - assert (Hrest : In r (fst (parse_pages fn (S i) rest [])) ->
      exists j text idx line,
        nth_error (pg :: rest) j = Some (ExtractText text) /\
        nth_error (split_on is_newline text) idx = Some line /\
        truthy (strip line) = true /\
        r = mkLine fn (i + j + 1) idx (strip line) text).
    { intros H. apply IH in H as [j [text [idx [line [H1 [H2 [H3 H4]]]]]]].
      exists (S j), text, idx, line. simpl. repeat split; auto.
      rewrite H4. f_equal. lia. }
    destruct pg as [text | | e]; simpl; auto.
    + destruct (truthy text); auto.
      rewrite parse_pages_app. simpl. rewrite in_app_iff. intros [H | H]; auto.
      apply in_append_lines in H as [idx [line [H1 [H2 H3]]]].
      apply in_enumerate_from in H1 as [_ H1]. rewrite Nat.sub_0_r in H1.
      exists 0, text, idx, line. simpl. repeat split; auto.
      rewrite H3. f_equal. lia.
    + intros [].
Qed.

Lemma in_corpus_of files r :
  In r (corpus_of files) ->
  exists f, In f files /\ extracted_from f r.
Proof.
  induction files as [|f rest IH].
  - intros [].
  - rewrite corpus_of_cons, in_app_iff. intros [H | H].
    + exists f. split; [now left|]. unfold parse_file in H.
      destruct (reader f) as [e | pages] eqn:E; simpl in H; [easy|].
      apply in_parse_pages in H as [j [text [idx [line [H1 [H2 [H3 H4]]]]]]].
      exists pages, j, text, idx, line. auto.
    + apply IH in H as [g [Hg H]]. exists g. split; [now right | exact H].
Qed.

(** ** Corpus Builder: resilience and invariants *)

(** C8. A document that cannot be opened at all contributes no record, its
    failure is reported with the document's name and the cause, and the
    records and reports of the documents before and after it are what they
    are without it. *)
Theorem batch_resilience (before after : list UploadedFile)
    (bad : UploadedFile) (e : exn) :
  reader bad = Unreadable e ->
  corpus_of (before ++ bad :: after) = corpus_of before ++ corpus_of after /\
  corpus_of (before ++ bad :: after) = corpus_of (before ++ after) /\
  errors_of (before ++ bad :: after) =
    errors_of before ++ error_message bad e :: errors_of after /\
  occurs (name bad) (error_message bad e) /\
  occurs e (error_message bad e).
Proof.
  intros Hbad.
  assert (Hc : corpus_of (bad :: after) = corpus_of after).
  { rewrite corpus_of_cons. unfold parse_file. now rewrite Hbad. }
  assert (He : errors_of (bad :: after) = error_message bad e :: errors_of after).
  { rewrite errors_of_cons. unfold parse_file. now rewrite Hbad. }
  repeat split.
  - now rewrite corpus_of_app, Hc.
  - now rewrite !corpus_of_app, Hc.
  - now rewrite errors_of_app, He.
  - unfold error_message. apply occurs_app_l, occurs_app_r, occurs_refl.
  - unfold error_message. do 3 apply occurs_app_l. apply occurs_refl.
Qed.

Lemma batch_resilience_witness :
  reader doc_corrupt = Unreadable (py "EOF marker not found") /\
  corpus_of ([] ++ doc_corrupt :: [doc_A]) = corpus_of [] ++ corpus_of [doc_A] /\
  corpus_of ([] ++ doc_corrupt :: [doc_A]) = corpus_of ([] ++ [doc_A]) /\
  errors_of ([] ++ doc_corrupt :: [doc_A]) =
    errors_of [] ++
    error_message doc_corrupt (py "EOF marker not found") :: errors_of [doc_A] /\
  occurs (name doc_corrupt)
    (error_message doc_corrupt (py "EOF marker not found")) /\
  occurs (py "EOF marker not found")
    (error_message doc_corrupt (py "EOF marker not found")).
Proof.
  split; [reflexivity|].
  apply (batch_resilience [] [doc_A] doc_corrupt). reflexivity.
Defined.

(** C9. The content of every record of a built corpus is a trimmed line that
    is neither empty nor made of whitespace only. *)
Theorem content_non_empty (files : list UploadedFile) (r : LineRecord) :
  In r (corpus_of files) ->
  Content r <> [] /\
  ~ whitespace_only (Content r) /\
  strip (Content r) = Content r /\
  exists line, Content r = strip line.
Proof.
  intros H. apply in_corpus_of in H as [f [_ H]].
  destruct H as [pages [j [text [idx [line [_ [_ [_ [Ht ->]]]]]]]]]. simpl.
  repeat split.
  - now apply truthy_true.
  - now apply strip_not_whitespace.
  - apply strip_idempotent.
  - now exists line.
Qed.

Lemma content_non_empty_witness :
  In line_B (corpus_of [doc_A; doc_B]) /\
  Content line_B <> [] /\
  ~ whitespace_only (Content line_B) /\
  strip (Content line_B) = Content line_B /\
  exists line, Content line_B = strip line.
Proof.
  assert (H : In line_B (corpus_of [doc_A; doc_B])).
  { vm_compute. right; left; reflexivity. }
  split; [exact H|].
  exact (content_non_empty [doc_A; doc_B] line_B H).
Defined.





(** ** The matcher decides the language of the expression *)

Section Regex.

Variable ic : bool.

Lemma Matches_Alt_inv r1 r2 w :
  Matches ic (Alt r1 r2) w -> Matches ic r1 w \/ Matches ic r2 w.
Proof. intros H; inversion H; subst; auto. Qed.

Lemma Matches_Cat_inv r1 r2 w :
  Matches ic (Cat r1 r2) w ->
  exists w1 w2, w = w1 ++ w2 /\ Matches ic r1 w1 /\ Matches ic r2 w2.
Proof. intros H; inversion H; subst; eauto. Qed.

Lemma Matches_Lit_inv a w :
  Matches ic (Lit a) w -> exists c, w = [c] /\ lit_eq ic a c = true.
Proof. intros H; inversion H; subst; eauto. Qed.

Lemma Matches_Digit_inv w :
  Matches ic Digit w -> exists c, w = [c] /\ is_digit c = true.
Proof. intros H; inversion H; subst; eauto. Qed.

Lemma nullable_spec r : nullable r = true <-> Matches ic r [].
Proof.
  split.
  - induction r; simpl; intros H; try discriminate.
    + constructor.
    + apply andb_true_iff in H as [H1 H2].
      change (@nil codepoint) with (@nil codepoint ++ []).
      constructor; auto.
    + apply orb_true_iff in H as [H | H]; [apply MAltL | apply MAltR]; auto.
    + apply MPlusOne; auto.
  - intros H. remember [] as w eqn:Hw.
    induction H; simpl; try discriminate; auto.
    + apply app_eq_nil in Hw as [-> ->]. rewrite IHMatches1, IHMatches2; auto.
    + rewrite IHMatches; auto.
    + rewrite IHMatches; auto using orb_true_r.
    + apply app_eq_nil in Hw as [-> ->]. auto.
Qed.

Lemma deriv_sound c r : forall w,
  Matches ic (deriv ic c r) w -> Matches ic r (c :: w).
Proof.
  induction r; simpl; intros w H.
  - inversion H.
  - inversion H.
  - destruct (lit_eq ic c0 c) eqn:E; inversion H; subst. now constructor.
  - destruct (is_digit c) eqn:E; inversion H; subst. now constructor.
  - destruct (nullable r1) eqn:N.
    + apply Matches_Alt_inv in H as [H | H].
      * apply Matches_Cat_inv in H as [w1 [w2 [-> [H1 H2]]]].
        apply (MCat (w1 := c :: w1)); auto.
      * apply (MCat (w1 := [])); auto. now apply nullable_spec.
    + apply Matches_Cat_inv in H as [w1 [w2 [-> [H1 H2]]]].
      apply (MCat (w1 := c :: w1)); auto.
  - apply Matches_Alt_inv in H as [H | H]; [apply MAltL | apply MAltR]; auto.
  - apply Matches_Alt_inv in H as [H | H].
    + apply MPlusOne; auto.
    + apply Matches_Cat_inv in H as [w1 [w2 [-> [H1 H2]]]].
      apply (MPlusMore (w1 := c :: w1)); auto.
Qed.

Lemma deriv_complete r cw :
  Matches ic r cw ->
  forall x v, cw = x :: v -> Matches ic (deriv ic x r) v.
Proof.
  induction 1; intros x v Hv; simpl.
  - discriminate.
  - injection Hv as -> <-. rewrite H. constructor.
  - injection Hv as -> <-. rewrite H. constructor.
  - destruct w1 as [|y w1]; simpl in Hv.
    + subst w2. apply nullable_spec in H. rewrite H. apply MAltR; auto.
    + injection Hv as -> <-.
      destruct (nullable r1); [apply MAltL|]; constructor; auto.
  - apply MAltL; auto.
  - apply MAltR; auto.
  - apply MAltL; auto.
  - destruct w1 as [|y w1]; simpl in Hv.
    + subst w2. apply (IHMatches2 x v eq_refl).
    + injection Hv as -> <-. apply MAltR. constructor; auto.
Qed.

Lemma deriv_spec c r w :
  Matches ic (deriv ic c r) w <-> Matches ic r (c :: w).
Proof.
  split; [apply deriv_sound | intros H; eapply deriv_complete; eauto].
Qed.

Lemma prefix_match_spec s : forall r,
  prefix_match ic r s = true <->
  exists w rest, s = w ++ rest /\ Matches ic r w.
Proof.
  induction s as [|c s IH]; intros r; simpl.
  - rewrite orb_false_r, nullable_spec. split.
    + intros H. exists [], []. auto.
    + intros [w [rest [Hw H]]]. symmetry in Hw.
      apply app_eq_nil in Hw as [-> _]. exact H.
  - rewrite orb_true_iff, nullable_spec, IH. split.
    + intros [H | [w [rest [-> H]]]].
      * exists [], (c :: s). auto.
      * exists (c :: w), rest. split; [reflexivity | now apply deriv_spec].
    + intros [w [rest [Hw H]]]. destruct w as [|d w]; simpl in Hw.
      * now left.
      * injection Hw as <- ->. right. exists w, rest.
        split; [reflexivity | now apply deriv_spec].
Qed.

Lemma Matches_lits m : forall w,
  Matches ic (lits m) w <-> Forall2 (fun a c => lit_eq ic a c = true) m w.
Proof.
  induction m as [|a m IH]; intros w; simpl.
  - split.
    + intros H; inversion H; constructor.
    + intros H; inversion H; constructor.
  - split.
    + intros H. apply Matches_Cat_inv in H as [w1 [w2 [-> [H1 H2]]]].
      apply Matches_Lit_inv in H1 as [c [-> Hc]]. simpl.
      constructor; [exact Hc | now apply IH].
    + intros H. inversion H as [|? c ? w' Hc Hrest]; subst.
      apply (MCat (w1 := [c])); [now constructor | now apply IH].
Qed.

Lemma Matches_Plus_Digit_head w :
  Matches ic (Plus Digit) w ->
  exists d rest, w = d :: rest /\ is_digit d = true.
Proof.
  intros H. inversion H as [| | | | | | ? ? H1 | ? w1 w2 H1 H2]; subst.
  - apply Matches_Digit_inv in H1 as [c [-> Hc]]. eauto.
  - apply Matches_Digit_inv in H1 as [c [-> Hc]]. simpl. eauto.
Qed.

End Regex.

(** ** Action Classifier *)

Lemma lit_eq_nocase (m : str) : forall w,
  Forall2 (fun a c => lit_eq true a c = true) m w <-> eq_nocase w m.
Proof.
  unfold eq_nocase, str_lower.
  induction m as [|a m IH]; intros w; split; intros H.
  - inversion H. reflexivity.
  - destruct w; [constructor | discriminate].
  - inversion H as [|? c ? w' Hc Hrest]; subst. simpl in *.
    apply N.eqb_eq in Hc. f_equal; [now symmetry | now apply IH].
  - destruct w as [|c w]; [discriminate|]. simpl in H. injection H as Hc Hw.
    constructor; [simpl; now apply N.eqb_eq | now apply IH].
Qed.

(** A literal that is not an ASCII letter matches itself only, also under
    [re.IGNORECASE]. *)
Lemma lit_eq_caseless (g c : codepoint) :
  (123 <= g)%N -> (lit_eq true g c = true <-> c = g).
Proof.
  intros Hg. unfold lit_eq, lower_cp. rewrite N.eqb_eq.
  destruct ((65 <=? g) && (g <=? 90))%N eqn:Eg.
  - apply andb_true_iff in Eg as [_ Eg]. apply N.leb_le in Eg. lia.
  - destruct ((65 <=? c) && (c <=? 90))%N eqn:Ec.
    + apply andb_true_iff in Ec as [_ Ec]. apply N.leb_le in Ec.
      split; intros H; lia.
    + split; intros H; congruence.
Qed.

Ltac glyph_bound := unfold ballot_box, ballot_box_checked, check_mark, bullet; lia.

Lemma is_action_spec (content : str) :
  is_action content = true <-> begins_with_marker content.
Proof.
  unfold is_action, str_contains_regex, re_search, pattern.
  cbn [anchored body negb]. rewrite prefix_match_spec.
  unfold begins_with_marker, begins_numbered, begins_nocase, begins_glyph.
  split.
  - intros [w [rest [-> H]]].
    repeat (apply Matches_Alt_inv in H as [H | H]).
    + apply Matches_Cat_inv in H as [w1 [w2 [-> [H1 H2]]]].
      apply Matches_lits, lit_eq_nocase in H1.
      apply Matches_Plus_Digit_head in H2 as [d [tl [-> Hd]]].
      left. exists w1, d, (tl ++ rest). rewrite <- app_assoc. simpl. auto.
    + apply Matches_lits, lit_eq_nocase in H.
      right; left. eauto.
    + apply Matches_Lit_inv in H as [c [-> Hc]].
      apply lit_eq_caseless in Hc; [subst c | glyph_bound].
      do 2 right; left. now exists rest.
    + apply Matches_Lit_inv in H as [c [-> Hc]].
      apply lit_eq_caseless in Hc; [subst c | glyph_bound].
      do 3 right; left. now exists rest.
    + apply Matches_Lit_inv in H as [c [-> Hc]].
      apply lit_eq_caseless in Hc; [subst c | glyph_bound].
      do 4 right; left. now exists rest.
    + apply Matches_Lit_inv in H as [c [-> Hc]].
      apply lit_eq_caseless in Hc; [subst c | glyph_bound].
      do 5 right; left. now exists rest.
    + apply Matches_Cat_inv in H as [w1 [w2 [-> [H1 H2]]]].
      apply Matches_lits, lit_eq_nocase in H1.
      apply Matches_Plus_Digit_head in H2 as [d [tl [-> Hd]]].
      do 6 right; left. exists w1, d, (tl ++ rest). rewrite <- app_assoc. simpl. auto.
    + apply Matches_lits, lit_eq_nocase in H.
      do 7 right. eauto.
  - intros [H | [H | [H | [H | [H | [H | [H | H]]]]]]].
    + destruct H as [w [d [rest [-> [Hw Hd]]]]].
      exists (w ++ [d]), rest. split; [now rewrite <- app_assoc|].
      apply MAltL. constructor.
      * now apply Matches_lits, lit_eq_nocase.
      * apply MPlusOne. now constructor.
    + destruct H as [w [rest [-> Hw]]]. exists w, rest. split; [reflexivity|].
      apply MAltR, MAltL. now apply Matches_lits, lit_eq_nocase.
    + destruct H as [rest ->]. exists [ballot_box], rest.
      split; [reflexivity|].
      do 2 apply MAltR. apply MAltL. constructor.
      apply lit_eq_caseless; [glyph_bound | reflexivity].
    + destruct H as [rest ->]. exists [ballot_box_checked], rest.
      split; [reflexivity|].
      do 3 apply MAltR. apply MAltL. constructor.
      apply lit_eq_caseless; [glyph_bound | reflexivity].
    + destruct H as [rest ->]. exists [check_mark], rest.
      split; [reflexivity|].
      do 4 apply MAltR. apply MAltL. constructor.
      apply lit_eq_caseless; [glyph_bound | reflexivity].
    + destruct H as [rest ->]. exists [bullet], rest.
      split; [reflexivity|].
      do 5 apply MAltR. apply MAltL. constructor.
      apply lit_eq_caseless; [glyph_bound | reflexivity].
    + destruct H as [w [d [rest [-> [Hw Hd]]]]].
      exists (w ++ [d]), rest. split; [now rewrite <- app_assoc|].
      do 6 apply MAltR. apply MAltL. constructor.
      * now apply Matches_lits, lit_eq_nocase.
      * apply MPlusOne. now constructor.
    + destruct H as [w [rest [-> Hw]]]. exists w, rest. split; [reflexivity|].
      do 7 apply MAltR. now apply Matches_lits, lit_eq_nocase.
Qed.


(** ** Case conversion on code points *)

Ltac cases_on_ranges :=
  repeat match goal with
         | |- context [(?x <=? ?y)%N] => destruct (N.leb_spec x y)
         | H : context [(?x <=? ?y)%N] |- _ => destruct (N.leb_spec x y)
         end;
  cbn [andb orb] in *.

Lemma upper_eq_lower_eq (a b : codepoint) :
  upper_cp a = upper_cp b <-> lower_cp a = lower_cp b.
Proof.
  unfold upper_cp, lower_cp. cases_on_ranges; lia.
Qed.

Lemma str_upper_eq_lower_eq (a : str) : forall b,
  str_upper a = str_upper b <-> str_lower a = str_lower b.
Proof.
  unfold str_upper, str_lower.
  induction a as [|x a IH]; intros [|y b]; simpl; try easy.
  split; intros H; injection H as Hx Ha; f_equal;
    solve [now apply upper_eq_lower_eq | now apply IH].
Qed.

Lemma isspace_caseless (c : codepoint) :
  isspace c = true -> (c < 65 \/ 122 < c)%N.
Proof.
  unfold isspace.
  rewrite !orb_true_iff, !andb_true_iff, !N.leb_le, !N.eqb_eq. lia.
Qed.

Lemma lower_cp_space (c : codepoint) : isspace c = true -> lower_cp c = c.
Proof.
  intros H. apply isspace_caseless in H.
  unfold lower_cp. cases_on_ranges; lia.
Qed.

Lemma upper_cp_space (c : codepoint) : isspace c = true -> upper_cp c = c.
Proof.
  intros H. apply isspace_caseless in H.
  unfold upper_cp. cases_on_ranges; lia.
Qed.

Lemma upper_cp_to_space (x c : codepoint) :
  isspace c = true -> upper_cp x = c -> x = c.
Proof.
  intros H. apply isspace_caseless in H.
  unfold upper_cp. cases_on_ranges; lia.
Qed.

Lemma str_lower_whitespace (q : str) : whitespace_only q -> str_lower q = q.
Proof.
  induction 1; simpl; [reflexivity|].
  f_equal; [now apply lower_cp_space | assumption].
Qed.

Lemma str_upper_whitespace (q : str) : whitespace_only q -> str_upper q = q.
Proof.
  induction 1; simpl; [reflexivity|].
  f_equal; [now apply upper_cp_space | assumption].
Qed.

Lemma str_upper_to_whitespace (q : str) :
  whitespace_only q -> forall m, str_upper m = q -> m = q.
Proof.
  induction 1 as [|c q Hc Hq IH]; intros [|x m] H; try discriminate.
  - reflexivity.
  - simpl in H. injection H as Hx Hm. f_equal.
    + now apply upper_cp_to_space.
    + now apply IH.
Qed.

(** ** Substring Search *)

Lemma occurs_map (f : codepoint -> codepoint) (p s : str) :
  occurs p (map f s) <->
  exists u m v, s = u ++ m ++ v /\ map f m = p.
Proof.
  unfold occurs. split.
  - intros [U [V H]].
    apply map_eq_app in H as [u [mv [-> [_ H]]]].
    apply map_eq_app in H as [m [v [-> [Hm _]]]].
    now exists u, m, v.
  - intros [u [m [v [-> <-]]]].
    exists (map f u), (map f v). now rewrite !map_app.
Qed.

Lemma str_contains_nocase_spec (query content : str) :
  str_contains_literal false query content = true <->
  occurs_nocase query content.
Proof.
  unfold str_contains_literal, occurs_nocase, eq_nocase.
  rewrite str_in_spec. unfold str_upper at 2. rewrite occurs_map.
  split; intros [u [m [v [H1 H2]]]]; exists u, m, v; split; auto.
  - now apply str_upper_eq_lower_eq.
  - now apply str_upper_eq_lower_eq.
Qed.

Lemma str_contains_whitespace_spec (query content : str) :
  whitespace_only query ->
  str_contains_literal false query content = true <-> occurs query content.
Proof.
  intros Hq. unfold str_contains_literal.
  rewrite str_in_spec, (str_upper_whitespace Hq).
  unfold str_upper. rewrite occurs_map. split.
  - intros [u [m [v [-> H]]]].
    apply (str_upper_to_whitespace Hq) in H. subst m. now exists u, v.
  - intros [u [v ->]]. exists u, query, v.
    split; [reflexivity | now apply str_upper_whitespace].
Qed.

Lemma search_nonempty (df : DataFrame) (query : str) :
  query <> [] ->
  search df query =
  filter (fun row => str_contains_literal false query (Content row)) df.
Proof.
  intros H. unfold search. apply truthy_true in H. now rewrite H.
Qed.



(** ** Relevance Scorer: tokens and scores *)

Lemma split_on_nonempty sep (s : str) : split_on sep s <> [].
Proof.
  destruct s as [|c s]; simpl; [discriminate|].
  destruct (sep c); [discriminate|].
  destruct (split_on sep s); discriminate.
Qed.



Lemma str_split_whitespace (q : str) : whitespace_only q -> str_split q = [].
Proof.
  unfold str_split. induction 1 as [|c q Hc Hq IH]; simpl.
  - reflexivity.
  - now rewrite Hc.
Qed.

Lemma page_score_from (text_lower : str) (tokens : list str) : forall acc,
  fold_left
    (fun score token => if str_in token text_lower then score + 1 else score)
    tokens acc =
  acc + length (filter (fun t => str_in t text_lower) tokens).
Proof.
  induction tokens as [|t tokens IH]; intros acc; simpl.
  - lia.
  - rewrite IH. destruct (str_in t text_lower); simpl; lia.
Qed.

Lemma page_score_count (tokens : list str) (text_lower : str) :
  page_score tokens text_lower =
  length (filter (fun t => str_in t text_lower) tokens).
Proof. unfold page_score. now rewrite page_score_from. Qed.



Lemma counts_le (P : str -> Prop) (l : list str) (n : nat) :
  counts P l n -> n <= length l.
Proof. induction 1; simpl; lia. Qed.


(** ** Relevance Scorer: the loop over the pages *)

Lemma score_row_scored tokens (results : list Result) (row : page_row) :
  score_row tokens results row =
  if 0 <? Score (scored tokens row)
  then results ++ [scored tokens row]
  else results.
Proof. destruct row as [[file page] text]. reflexivity. Qed.

Lemma result_page_scored tokens (row : page_row) :
  result_page (scored tokens row) = row.
Proof. destruct row as [[file page] text]. reflexivity. Qed.

Lemma results_loop tokens (pages : list page_row) : forall acc,
  fold_left (score_row tokens) pages acc =
  acc ++ filter (fun r => 0 <? Score r) (map (scored tokens) pages).
Proof.
  induction pages as [|row pages IH]; intros acc; simpl.
  - now rewrite app_nil_r.
  - rewrite IH, score_row_scored.
    destruct (0 <? Score (scored tokens row)); [|reflexivity].
    now rewrite <- app_assoc.
Qed.

(** ** Lists: one element before another *)

Lemma filter_split {A : Type} (P : A -> bool) (a : A) (l : list A) :
  forall x y, filter P l = x ++ a :: y ->
  exists m n, l = m ++ a :: n /\ filter P m = x /\ filter P n = y.
Proof.
  induction l as [|h t IH]; intros x y H; simpl in H.
  - destruct x; discriminate.
  - destruct (P h) eqn:E.
    + destruct x as [|h' x]; simpl in H; injection H as -> H.
      * exists [], t. auto.
      * apply IH in H as [m [n [-> [Hm Hn]]]].
        exists (h' :: m), n. simpl. rewrite E, Hm. auto.
    + apply IH in H as [m [n [-> [Hm Hn]]]].
      exists (h :: m), n. simpl. rewrite E. auto.
Qed.

Lemma before_filter {A : Type} (P : A -> bool) (a b : A) (l : list A) :
  before a b (filter P l) -> before a b l.
Proof.
  intros [l1 [l2 [l3 H]]].
  apply filter_split in H as [m [n [-> [_ H]]]].
  apply filter_split in H as [m' [n' [-> _]]].
  now exists m, m', n'.
Qed.

Lemma before_map {A B : Type} (f : A -> B) (a b : B) (l : list A) :
  before a b (map f l) ->
  exists x y, before x y l /\ f x = a /\ f y = b.
Proof.
  intros [l1 [l2 [l3 H]]].
  apply map_eq_app in H as [m1 [t1 [-> [_ H]]]].
  apply map_eq_cons in H as [x [t2 [-> [Hx H]]]].
  apply map_eq_app in H as [m2 [t3 [-> [_ H]]]].
  apply map_eq_cons in H as [y [m3 [-> [Hy _]]]].
  exists x, y. split; [now exists m1, m2, m3 | auto].
Qed.

Lemma before_In {A : Type} (a b : A) (l : list A) :
  before a b l -> In a l /\ In b l.
Proof.
  intros [l1 [l2 [l3 ->]]]. split.
  - apply in_or_app. right. now left.
  - apply in_or_app. right. right. apply in_or_app. right. now left.
Qed.

(** ** The stable sort *)

Lemma insert_by_score_In (x r : Result) (l : list Result) :
  In r (insert_by_score x l) <-> r = x \/ In r l.
Proof.
  induction l as [|y l IH]; simpl.
  - intuition.
  - destruct (Score x <? Score y); simpl; rewrite ?IH; intuition.
Qed.

Lemma sorted_reverse_In (r : Result) (l : list Result) :
  In r (sorted_reverse l) <-> In r l.
Proof.
  induction l as [|x l IH]; simpl; [tauto|].
  rewrite insert_by_score_In, IH. intuition.
Qed.

Lemma insert_by_score_sorted (x : Result) (l : list Result) :
  StronglySorted (fun a b => Score b <= Score a) l ->
  StronglySorted (fun a b => Score b <= Score a) (insert_by_score x l).
Proof.
  induction 1 as [|y l Hs IH Hy]; simpl.
  - repeat constructor.
  - destruct (Score x <? Score y) eqn:E.
    + apply Nat.ltb_lt in E. constructor; [exact IH|].
      apply Forall_forall. intros r Hr.
      apply insert_by_score_In in Hr as [-> | Hr]; [lia|].
      rewrite Forall_forall in Hy. auto.
    + apply Nat.ltb_ge in E. constructor.
      * now constructor.
      * constructor; [exact E|].
        rewrite Forall_forall in *. intros r Hr. specialize (Hy r Hr). lia.
Qed.

Lemma sorted_reverse_sorted (l : list Result) :
  StronglySorted (fun a b => Score b <= Score a) (sorted_reverse l).
Proof.
  induction l as [|x l IH]; simpl.
  - constructor.
  - now apply insert_by_score_sorted.
Qed.

Lemma insert_by_score_filter (k : nat) (x : Result) (l : list Result) :
  filter (fun r => Score r =? k) (insert_by_score x l) =
  filter (fun r => Score r =? k) (x :: l).
Proof.
  induction l as [|y l IH]; [reflexivity|].
  cbn [insert_by_score]. destruct (Score x <? Score y) eqn:E; [|reflexivity].
  apply Nat.ltb_lt in E. cbn [filter] in *. rewrite IH.
  destruct (Score x =? k) eqn:Ex, (Score y =? k) eqn:Ey; try reflexivity.
  apply Nat.eqb_eq in Ex, Ey. lia.
Qed.

Lemma sorted_reverse_filter (k : nat) (l : list Result) :
  filter (fun r => Score r =? k) (sorted_reverse l) =
  filter (fun r => Score r =? k) l.
Proof.
  induction l as [|x l IH]; [reflexivity|].
  cbn [sorted_reverse fold_right]. rewrite insert_by_score_filter.
  cbn [filter]. fold (sorted_reverse l). now rewrite IH.
Qed.

(** Stability: results of equal score leave the sort in the order in which
    they entered it. *)
Lemma sorted_reverse_stable (a b : Result) (l : list Result) :
  Score a = Score b -> before a b (sorted_reverse l) -> before a b l.
Proof.
  intros Hab [l1 [l2 [l3 H]]].
  apply before_filter with (P := fun r => Score r =? Score a).
  rewrite <- sorted_reverse_filter, H.
  rewrite filter_app. cbn [filter]. rewrite Nat.eqb_refl.
  rewrite filter_app. cbn [filter]. rewrite <- Hab, Nat.eqb_refl.
  now eexists _, _, _.
Qed.

(** ** drop_duplicates keeps the first of equal rows *)

Lemma str_eqb_spec (a : str) : forall b, str_eqb a b = true <-> a = b.
Proof.
  induction a as [|x a IH]; intros [|y b]; simpl; try easy.
  rewrite andb_true_iff, N.eqb_eq, IH. split.
  - intros [-> ->]. reflexivity.
  - intros H. injection H as -> ->. auto.
Qed.

Lemma page_row_eqb_spec (a b : page_row) : page_row_eqb a b = true <-> a = b.
Proof.
  destruct a as [[f1 p1] t1], b as [[f2 p2] t2]. simpl.
  rewrite !andb_true_iff, !str_eqb_spec, Nat.eqb_eq. split.
  - intros [[-> ->] ->]. reflexivity.
  - intros H. injection H as -> -> ->. auto.
Qed.

Lemma page_row_eqb_false (a b : page_row) :
  page_row_eqb a b = false <-> a <> b.
Proof.
  rewrite <- page_row_eqb_spec. destruct (page_row_eqb a b); split; congruence.
Qed.

Lemma seen_spec (x : page_row) (seen : list page_row) :
  existsb (page_row_eqb x) seen = true <-> In x seen.
Proof.
  rewrite existsb_exists. split.
  - intros [y [Hy H]]. apply page_row_eqb_spec in H. now subst.
  - intros H. exists x. split; [exact H | now apply page_row_eqb_spec].
Qed.

Lemma seen_false (x : page_row) (seen : list page_row) :
  existsb (page_row_eqb x) seen = false <-> ~ In x seen.
Proof.
  rewrite <- seen_spec. destruct (existsb _ seen); split; congruence.
Qed.

Lemma drop_duplicates_from_In (z : page_row) (rows : list page_row) :
  forall seen,
  In z (drop_duplicates_from seen rows) <-> In z rows /\ ~ In z seen.
Proof.
  induction rows as [|x rows IH]; intros seen; simpl.
  - tauto.
  - destruct (existsb (page_row_eqb x) seen) eqn:E.
    + apply seen_spec in E. rewrite IH. split.
      * tauto.
      * intros [[-> | H] Hn]; [contradiction | tauto].
    + apply seen_false in E. simpl. rewrite IH. simpl. split.
      * intros [-> | [H Hn]]; tauto.
      * intros [[-> | H] Hn]; [tauto|].
        destruct (page_row_eqb x z) eqn:Exz.
        -- apply page_row_eqb_spec in Exz. tauto.
        -- apply page_row_eqb_false in Exz. right. split; [exact H|].
           intros [Heq | Hs]; [now apply Exz | now apply Hn].
Qed.

Lemma drop_duplicates_In (z : page_row) (rows : list page_row) :
  In z (drop_duplicates rows) <-> In z rows.
Proof.
  unfold drop_duplicates. rewrite drop_duplicates_from_In. simpl. tauto.
Qed.

Lemma index_of_cons_other (x y : page_row) (l : list page_row) :
  x <> y -> index_of x (y :: l) = S (index_of x l).
Proof.
  intros H. simpl. apply page_row_eqb_false in H. now rewrite H.
Qed.

Lemma index_of_cons_same (x : page_row) (l : list page_row) :
  index_of x (x :: l) = 0.
Proof.
  simpl. now rewrite (proj2 (page_row_eqb_spec x x) eq_refl).
Qed.

Lemma drop_duplicates_from_order (x y : page_row) (rows : list page_row) :
  forall seen,
  before x y (drop_duplicates_from seen rows) ->
  index_of x rows < index_of y rows.
Proof.
  induction rows as [|r rows IH]; intros seen Hb.
  - destruct Hb as [l1 [l2 [l3 H]]]. destruct l1; discriminate.
  - assert (Hin := before_In Hb). destruct Hin as [Hx Hy].
    cbn [drop_duplicates_from] in Hb, Hx, Hy.
    destruct (existsb (page_row_eqb r) seen) eqn:E.
    + apply seen_spec in E.
      apply drop_duplicates_from_In in Hx as [_ Hx].
      apply drop_duplicates_from_In in Hy as [_ Hy].
      rewrite !index_of_cons_other by congruence.
      apply IH in Hb. lia.
    + destruct Hb as [l1 [l2 [l3 H]]]. destruct l1 as [|h l1]; simpl in H.
      * injection H as -> H.
        assert (Hy' : In y (drop_duplicates_from (x :: seen) rows)).
        { rewrite H. apply in_or_app. right. now left. }
        apply drop_duplicates_from_In in Hy' as [_ Hy'].
        rewrite index_of_cons_same, index_of_cons_other; [lia|].
        intros ->. apply Hy'. now left.
      * injection H as -> H.
        assert (Hb' : before x y (drop_duplicates_from (h :: seen) rows))
          by now exists l1, l2, l3.
        destruct (before_In Hb') as [Hx' Hy'].
        apply drop_duplicates_from_In in Hx' as [_ Hx'].
        apply drop_duplicates_from_In in Hy' as [_ Hy'].
        rewrite !index_of_cons_other
          by (intros ->; first [apply Hx'; now left | apply Hy'; now left]).
        apply IH in Hb'. lia.
Qed.

Lemma drop_duplicates_order (x y : page_row) (rows : list page_row) :
  before x y (drop_duplicates rows) -> index_of x rows < index_of y rows.
Proof. apply drop_duplicates_from_order. Qed.

(** ** Relevance Scorer: what [rank] returns *)

Lemma rank_nonempty (df : DataFrame) (query : str) :
  rank df query =
  if truthy query
  then sorted_reverse
         (filter (fun r => 0 <? Score r)
            (map (scored (str_split (str_lower query)))
               (drop_duplicates (map page_cols df))))
  else [].
Proof.
  unfold rank. destruct (truthy query); [|reflexivity].
  now rewrite results_loop.
Qed.

Lemma rank_In (df : DataFrame) (query : str) (r : Result) :
  In r (rank df query) <->
  In (result_page r) (map page_cols df) /\
  0 < Score r /\
  Score r = page_score (str_split (str_lower query)) (str_lower (Text r)).
Proof.
  rewrite rank_nonempty. destruct (truthy query) eqn:Eq.
  - rewrite sorted_reverse_In, filter_In, in_map_iff, Nat.ltb_lt. split.
    + intros [[row [<- Hrow]] Hs]. rewrite result_page_scored.
      apply (proj1 (drop_duplicates_In _ _)) in Hrow.
      destruct row as [[f p] t]. auto.
    + intros [Hrow [Hs He]]. split; [|exact Hs].
      exists (result_page r). split.
      * destruct r as [f p t s]. simpl in *. now subst s.
      * now apply drop_duplicates_In.
  - apply truthy_false in Eq. subst query. simpl. split; [easy|].
    intros [_ [Hs He]]. unfold str_split, page_score in He. simpl in He. lia.
Qed.







(** C4. The ranking is in descending order of score, holds no page of score
    0, and two pages of equal score stand in the order of their first
    appearance in the corpus. *)
Theorem rank_order (df : DataFrame) (query : str) :
  StronglySorted (fun a b => Score b <= Score a) (rank df query) /\
  Forall (fun r => 0 < Score r) (rank df query) /\
  (forall a b : Result,
     before a b (rank df query) -> Score a = Score b ->
     index_of (result_page a) (map page_cols df) <
     index_of (result_page b) (map page_cols df)).
Proof.
  split; [|split].
  - rewrite rank_nonempty. destruct (truthy query).
    + apply sorted_reverse_sorted.
    + constructor.
  - apply Forall_forall. intros r Hr. now apply rank_In in Hr.
  - intros a b Hb Hab. rewrite rank_nonempty in Hb.
    destruct (truthy query).
    + apply (sorted_reverse_stable _ Hab) in Hb.
      apply before_filter, before_map in Hb as [x [y [Hb [<- <-]]]].
      rewrite !result_page_scored. now apply drop_duplicates_order.
    + destruct Hb as [l1 [l2 [l3 H]]]. destruct l1; discriminate.
Qed.

Lemma rank_order_witness :
  before (mkResult (py "A.pdf") 1 (py "focus and dopamine drive habit") 1)
         (mkResult (py "D.pdf") 1 (py "habit habit habit") 1)
         (rank (corpus_of [doc_B; doc_A; doc_D]) (py "habit")) /\
  index_of (py "A.pdf", 1, py "focus and dopamine drive habit")
    (map page_cols (corpus_of [doc_B; doc_A; doc_D])) <
  index_of (py "D.pdf", 1, py "habit habit habit")
    (map page_cols (corpus_of [doc_B; doc_A; doc_D])).
Proof.
  assert (H : before
                (mkResult (py "A.pdf") 1 (py "focus and dopamine drive habit") 1)
                (mkResult (py "D.pdf") 1 (py "habit habit habit") 1)
                (rank (corpus_of [doc_B; doc_A; doc_D]) (py "habit"))).
  { exists [], [], []. reflexivity. }
  split; [exact H|].
  exact (proj2 (proj2 (rank_order (corpus_of [doc_B; doc_A; doc_D])
                         (py "habit"))) _ _ H eq_refl).
Defined.

(** ** Blank queries *)

Lemma rank_whitespace (df : DataFrame) (query : str) :
  whitespace_only query -> rank df query = [].
Proof.
  intros Hq. rewrite rank_nonempty. destruct (truthy query); [|reflexivity].
  rewrite (str_lower_whitespace Hq), (str_split_whitespace Hq).
  induction (drop_duplicates (map page_cols df)) as [|[[f p] t] rows IH].
  - reflexivity.
  - exact IH.
Qed.

(** C1, as amended. An empty query gives the empty result in both
    components, and so does a whitespace-only query in the Relevance Scorer;
    in Substring Search a whitespace-only query that is not empty is a literal
    like any other and finds the records whose content contains it. *)
Theorem blank_query (df : DataFrame) (query : str) :
  whitespace_only query ->
  rank df query = [] /\
  (query = [] -> search df query = []) /\
  (query <> [] ->
   forall r, In r (search df query) <-> In r df /\ occurs query (Content r)).
Proof.
  intros Hq. split; [|split].
  - now apply rank_whitespace.
  - intros ->. reflexivity.
  - intros Hne r. rewrite (search_nonempty df Hne), filter_In.
    now rewrite (str_contains_whitespace_spec _ Hq).
Qed.

Lemma blank_query_witness :
  whitespace_only (py " ") /\
  rank (corpus_of [doc_A; doc_B]) (py " ") = [] /\
  (py " " = [] -> search (corpus_of [doc_A; doc_B]) (py " ") = []) /\
  (py " " <> [] ->
   forall r, In r (search (corpus_of [doc_A; doc_B]) (py " ")) <->
             In r (corpus_of [doc_A; doc_B]) /\ occurs (py " ") (Content r)).
Proof.
  assert (H : whitespace_only (py " ")) by (repeat constructor).
  split; [exact H|].
  exact (blank_query (corpus_of [doc_A; doc_B]) H).
Defined.

(** C1 as stated fails: the whitespace-only query [" "] finds every line
    that holds a space. *)
Lemma blank_query_search_finds :
  whitespace_only (py " ") /\
  search (corpus_of [doc_A; doc_B]) (py " ") = [line_A; line_B] /\
  search (corpus_of [doc_A; doc_B]) (py " ") <> [].
Proof.
  split; [repeat constructor | split; [reflexivity | discriminate]].
Qed.

(** ** str.replace *)











(** ** Highlighting *)



(** ** Replacement across a character foreign to the pattern *)


















(* ================================================================== *)
(** * Part III: further properties of the code *)
(* ================================================================== *)

(** ** Corpus Builder: which lines reach the corpus *)

Lemma in_enumerate_from_conv {A : Type} (l : list A) : forall k i (x : A),
  nth_error l i = Some x -> In (k + i, x) (enumerate_from k l).
Proof.
  induction l as [|y l IH]; intros k [|i] x H; simpl in *; try discriminate.
  - injection H as ->. left. f_equal. lia.
  - right. replace (k + S i) with (S k + i) by lia. now apply IH.
Qed.

Lemma in_append_lines_conv fn p text lines idx line :
  In (idx, line) lines -> truthy (strip line) = true ->
  In (mkLine fn p idx (strip line) text) (append_lines fn p text lines []).
Proof.
  intros Hin Ht. induction lines as [|[i l] rest IH]; [easy|].
  simpl. destruct Hin as [H | H].
  - injection H as -> ->. rewrite Ht, append_lines_app. simpl. now left.
  - destruct (truthy (strip l)).
    + rewrite append_lines_app. simpl. right. now apply IH.
    + now apply IH.
Qed.

Lemma split_text_truthy (text : str) idx line :
  nth_error (split_on is_newline text) idx = Some line ->
  truthy (strip line) = true -> truthy text = true.
Proof.
  destruct text as [|c text]; [|reflexivity].
  destruct idx as [|[|idx]]; simpl; intros H Ht; try discriminate.
  injection H as <-. discriminate.
Qed.

Lemma parse_pages_reaches fn text idx line (pages : list page_extract) :
  forall i j,
  nth_error pages j = Some (ExtractText text) ->
  existsb page_raises (firstn j pages) = false ->
  nth_error (split_on is_newline text) idx = Some line ->
  truthy (strip line) = true ->
  In (mkLine fn (i + j + 1) idx (strip line) text)
     (fst (parse_pages fn i pages [])).
Proof.
  induction pages as [|pg rest IH]; intros i [|j] Hj Hraise Hline Ht;
    simpl in Hj; try discriminate.
  - injection Hj as ->. simpl.
    rewrite (split_text_truthy _ _ Hline Ht), parse_pages_app. simpl.
    apply in_or_app. left. rewrite Nat.add_0_r.
    apply in_append_lines_conv; [|exact Ht].
    apply (in_enumerate_from_conv _ 0 idx). exact Hline.
  - simpl in Hraise. apply orb_false_iff in Hraise as [Hpg Hraise].
    replace (i + S j + 1) with (S i + j + 1) by lia.
    specialize (IH (S i) j Hj Hraise Hline Ht).
    destruct pg as [t | | e]; simpl; try discriminate; auto.
    destruct (truthy t); auto.
    rewrite parse_pages_app. simpl. apply in_or_app. now right.
Qed.

Lemma in_parse_pages_reached fn pages r : forall i,
  In r (fst (parse_pages fn i pages [])) ->
  exists j text idx line,
    nth_error pages j = Some (ExtractText text) /\
    existsb page_raises (firstn j pages) = false /\
    nth_error (split_on is_newline text) idx = Some line /\
    truthy (strip line) = true /\
    r = mkLine fn (i + j + 1) idx (strip line) text.
Proof.
  induction pages as [|pg rest IH]; intros i; simpl.
  - intros [].
  - assert (Hrest : page_raises pg = false ->
      In r (fst (parse_pages fn (S i) rest [])) ->
      exists j text idx line,
        nth_error (pg :: rest) j = Some (ExtractText text) /\
        existsb page_raises (firstn j (pg :: rest)) = false /\
        nth_error (split_on is_newline text) idx = Some line /\
        truthy (strip line) = true /\
        r = mkLine fn (i + j + 1) idx (strip line) text).
    { intros Hpg H.
      apply IH in H as [j [text [idx [line [H1 [H2 [H3 [H4 H5]]]]]]]].
      exists (S j), text, idx, line. simpl. rewrite Hpg, H2.
      repeat split; auto. rewrite H5. f_equal. lia. }
    destruct pg as [text | | e]; simpl; auto.
    + destruct (truthy text); auto.
      rewrite parse_pages_app. simpl. rewrite in_app_iff. intros [H | H]; auto.
      apply in_append_lines in H as [idx [line [H1 [H2 H3]]]].
      apply in_enumerate_from in H1 as [_ H1]. rewrite Nat.sub_0_r in H1.
      exists 0, text, idx, line. simpl. repeat split; auto.
      rewrite H3. f_equal. lia.
    + intros [].
Qed.

Lemma in_parse_file (f : UploadedFile) (r : LineRecord) :
  In r (fst (parse_file f [])) <-> reached_line f r.
Proof.
  unfold parse_file, reached_line. split.
  - destruct (reader f) as [e | pages] eqn:E; simpl; [easy|].
    intros H.
    apply in_parse_pages_reached in H
      as [j [text [idx [line [H1 [H2 [H3 [H4 H5]]]]]]]].
    exists pages, j, text, idx, line. repeat split; auto.
  - intros [pages [j [text [idx [line [-> [H1 [H2 [H3 [H4 ->]]]]]]]]]].
    apply (@parse_pages_reaches (name f) text idx line pages 0 j); auto.
Qed.

Lemma corpus_reached (files : list UploadedFile) (r : LineRecord) :
  In r (corpus_of files) -> exists f, In f files /\ reached_line f r.
Proof.
  induction files as [|f rest IH]; [intros []|].
  rewrite corpus_of_cons, in_app_iff, in_parse_file.
  intros [H | H].
  - exists f. split; [now left | exact H].
  - destruct (IH H) as [g [Hg Hr]]. exists g. split; [now right | exact Hr].
Qed.

Lemma reached_corpus (files : list UploadedFile) (f : UploadedFile)
    (r : LineRecord) :
  In f files -> reached_line f r -> In r (corpus_of files).
Proof.
  induction files as [|g rest IH]; [intros []|].
  rewrite corpus_of_cons, in_app_iff, in_parse_file.
  intros [-> | Hf] H; [now left | right; now apply IH].
Qed.

(** X1. A record is in the corpus exactly when it is the trimmed, non-empty
    line of a page with text of an uploaded document, no earlier page of which
    raises; it carries the document's name, the page's position plus one, the
    line's position in the split, and the page text. *)
Theorem corpus_membership (files : list UploadedFile) (r : LineRecord) :
  In r (corpus_of files) <-> exists f, In f files /\ reached_line f r.
Proof.
  split.
  - apply corpus_reached.
  - intros [f [Hf H]]. now apply reached_corpus with f.
Qed.

(** ** Corpus Builder: failures *)

Lemma parse_pages_raise fn e post (pre : list page_extract) :
  forall i (d : DataFrame),
  existsb page_raises pre = false ->
  parse_pages fn i (pre ++ ExtractRaises e :: post) d =
  (fst (parse_pages fn i pre d), Some e).
Proof.
  induction pre as [|pg pre IH]; intros i d H; simpl in *.
  - reflexivity.
  - apply orb_false_iff in H as [Hpg H].
    destruct pg as [t | | e']; simpl in *; try discriminate; auto.
    destruct (truthy t); auto.
Qed.

Lemma parse_pages_error fn (pages : list page_extract) :
  forall i (d : DataFrame),
  snd (parse_pages fn i pages d) = None <-> existsb page_raises pages = false.
Proof.
  induction pages as [|pg pages IH]; intros i d; simpl.
  - tauto.
  - destruct pg as [t | | e]; simpl; try apply IH.
    + destruct (truthy t); apply IH.
    + split; discriminate.
Qed.

Lemma parse_file_error (f : UploadedFile) :
  snd (parse_file f []) = None <-> file_fails f = false.
Proof.
  unfold parse_file, file_fails. destruct (reader f).
  - simpl. split; discriminate.
  - apply parse_pages_error.
Qed.

(** X2. When a page of a document raises, the records of the document's
    earlier pages stay in the corpus, its later pages are not read, and the
    failure is reported once under the document's name; the other documents
    are read as without it. *)
Theorem partial_failure (before after : list UploadedFile) (n : str)
    (pre post : list page_extract) (e : exn) :
  existsb page_raises pre = false ->
  corpus_of
    (before ++ mkUpload n (Readable (pre ++ ExtractRaises e :: post)) :: after) =
  corpus_of (before ++ mkUpload n (Readable pre) :: after) /\
  errors_of
    (before ++ mkUpload n (Readable (pre ++ ExtractRaises e :: post)) :: after) =
  errors_of before ++
  error_message (mkUpload n (Readable (pre ++ ExtractRaises e :: post))) e ::
  errors_of after /\
  errors_of (before ++ mkUpload n (Readable pre) :: after) =
  errors_of before ++ errors_of after.
Proof.
  intros Hpre.
  rewrite !corpus_of_app, !errors_of_app, !corpus_of_cons, !errors_of_cons.
  unfold parse_file. cbn [reader name].
  rewrite (parse_pages_raise _ _ _ _ _ _ Hpre). cbn [fst snd].
  rewrite (proj2 (parse_pages_error n pre 0 []) Hpre).
  auto.
Qed.

Lemma partial_failure_witness :
  existsb page_raises [ExtractText (py "intro"); ExtractNone] = false /\
  corpus_of
    ([doc_A] ++
     mkUpload (py "E.pdf")
       (Readable ([ExtractText (py "intro"); ExtractNone] ++
                  ExtractRaises (py "bad xref") :: [ExtractText (py "lost")]))
     :: [doc_B]) =
  corpus_of
    ([doc_A] ++
     mkUpload (py "E.pdf") (Readable [ExtractText (py "intro"); ExtractNone])
     :: [doc_B]) /\
  errors_of
    ([doc_A] ++
     mkUpload (py "E.pdf")
       (Readable ([ExtractText (py "intro"); ExtractNone] ++
                  ExtractRaises (py "bad xref") :: [ExtractText (py "lost")]))
     :: [doc_B]) =
  errors_of [doc_A] ++
  error_message
    (mkUpload (py "E.pdf")
       (Readable ([ExtractText (py "intro"); ExtractNone] ++
                  ExtractRaises (py "bad xref") :: [ExtractText (py "lost")])))
    (py "bad xref") :: errors_of [doc_B] /\
  errors_of
    ([doc_A] ++
     mkUpload (py "E.pdf") (Readable [ExtractText (py "intro"); ExtractNone])
     :: [doc_B]) =
  errors_of [doc_A] ++ errors_of [doc_B].
Proof.
  split; [reflexivity|].
  apply (partial_failure [doc_A] [doc_B] (py "E.pdf")
           [ExtractText (py "intro"); ExtractNone] [ExtractText (py "lost")]
           (py "bad xref")).
  reflexivity.
Defined.

(** X3. One message is displayed for each failing document and none for the
    others: there are as many messages as failing documents, no message
    exactly when no document fails, and every message is the report of a
    failing document of the batch. *)
Theorem error_reports (files : list UploadedFile) :
  length (errors_of files) = length (filter file_fails files) /\
  (errors_of files = [] <-> forall f, In f files -> file_fails f = false) /\
  (forall msg, In msg (errors_of files) ->
     exists f e, In f files /\ file_fails f = true /\
                 msg = error_message f e).
Proof.
  induction files as [|f rest [IHlen [IHnil IHmsg]]].
  - repeat split; easy.
  - rewrite errors_of_cons. cbn [filter].
    destruct (snd (parse_file f [])) as [e|] eqn:E.
    + assert (Hf : file_fails f = true).
      { destruct (file_fails f) eqn:Ef; [reflexivity|].
        apply parse_file_error in Ef. congruence. }
      rewrite Hf. repeat split.
      * simpl. now rewrite IHlen.
      * discriminate.
      * intros H. specialize (H f (or_introl eq_refl)). congruence.
      * intros msg [<- | Hm].
        -- exists f, e. repeat split; auto. now left.
        -- destruct (IHmsg msg Hm) as [g [e' [Hg H]]].
           exists g, e'. split; [now right | exact H].
    + apply parse_file_error in E. rewrite E. repeat split.
      * exact IHlen.
      * intros H g [<- | Hg]; [exact E | now apply IHnil].
      * intros H. apply IHnil. intros g Hg. apply H. now right.
      * intros msg Hm. destruct (IHmsg msg Hm) as [g [e' [Hg H]]].
        exists g, e'. split; [now right | exact H].
Qed.

Lemma error_reports_witness :
  In (error_message doc_corrupt (py "EOF marker not found"))
     (errors_of [doc_A; doc_corrupt]) /\
  exists f e, In f [doc_A; doc_corrupt] /\ file_fails f = true /\
    error_message doc_corrupt (py "EOF marker not found") = error_message f e.
Proof.
  assert (H : In (error_message doc_corrupt (py "EOF marker not found"))
                 (errors_of [doc_A; doc_corrupt])).
  { left. reflexivity. }
  split; [exact H|].
  exact (proj2 (proj2 (error_reports [doc_A; doc_corrupt])) _ H).
Defined.

(** ** Corpus Builder: the shape of a record *)

Lemma lstrip_suffix (s : str) : exists w, s = w ++ lstrip s.
Proof.
  induction s as [|c s [w IH]]; simpl.
  - now exists [].
  - destruct (isspace c).
    + exists (c :: w). simpl. now f_equal.
    + now exists [].
Qed.

Lemma rstrip_prefix (s : str) : exists w, s = rstrip s ++ w.
Proof.
  unfold rstrip. destruct (lstrip_suffix (rev s)) as [w H].
  exists (rev w). rewrite <- rev_app_distr, <- H. now rewrite rev_involutive.
Qed.

Lemma strip_occurs_in (s : str) : occurs (strip s) s.
Proof.
  unfold strip. destruct (lstrip_suffix s) as [w Hw].
  destruct (rstrip_prefix (lstrip s)) as [v Hv].
  exists w, v. now rewrite <- Hv.
Qed.

Lemma occurs_In (p s : str) (c : codepoint) : occurs p s -> In c p -> In c s.
Proof.
  intros [u [v ->]] H. apply in_or_app. right. apply in_or_app. now left.
Qed.

Lemma split_on_head sep (s : str) :
  exists f fs v, split_on sep s = f :: fs /\ s = f ++ v.
Proof.
  induction s as [|c s [f [fs [v [E Hs]]]]]; simpl.
  - now exists [], [], [].
  - destruct (sep c).
    + now exists [], (split_on sep s), (c :: s).
    + rewrite E. exists (c :: f), fs, v. simpl. now rewrite <- Hs.
Qed.

Lemma split_on_field_occurs sep (s : str) (fld : str) :
  In fld (split_on sep s) -> occurs fld s.
Proof.
  induction s as [|c s IH]; simpl.
  - intros [<- | []]. apply occurs_refl.
  - destruct (sep c).
    + intros [<- | H].
      * now exists [], (c :: s).
      * apply (occurs_app_l [c]). auto.
    + destruct (split_on_head sep s) as [f [fs [v [E Hs]]]].
      rewrite E in *. intros [<- | H].
      * exists [], v. simpl. now rewrite <- Hs.
      * apply (occurs_app_l [c]). apply IH. now right.
Qed.

Lemma split_on_field_nosep sep (s : str) (fld : str) :
  In fld (split_on sep s) -> Forall (fun c => sep c = false) fld.
Proof.
  revert fld. induction s as [|c s IH]; intros fld; simpl.
  - intros [<- | []]. constructor.
  - destruct (sep c) eqn:Ec.
    + intros [<- | H]; [constructor | auto].
    + destruct (split_on sep s) as [|f fs].
      * intros [<- | []]. repeat constructor. exact Ec.
      * intros [<- | H].
        -- constructor; [exact Ec | apply IH; now left].
        -- apply IH. now right.
Qed.

(** X4. In a built corpus the content of every record is a part of its own
    page text and holds no line break, the page text is not empty, and pages
    are numbered from 1. *)
Theorem record_shape (files : list UploadedFile) (r : LineRecord) :
  In r (corpus_of files) ->
  occurs (Content r) (Full_Page_Text r) /\
  ~ In 10%N (Content r) /\
  Full_Page_Text r <> [] /\
  1 <= Page r.
Proof.
  intros H. apply corpus_reached in H as [f [_ H]].
  destruct H as [pages [j [text [idx [line [_ [_ [_ [Hl [Ht ->]]]]]]]]]].
  simpl. apply nth_error_In in Hl as Hin. repeat split.
  - eapply occurs_trans; [apply strip_occurs_in|].
    eapply split_on_field_occurs; eauto.
  - intros Hc. apply (@occurs_In _ _ _ (strip_occurs_in line)) in Hc.
    apply split_on_field_nosep in Hin. rewrite Forall_forall in Hin.
    specialize (Hin _ Hc). discriminate.
  - apply truthy_true. eapply split_text_truthy; eauto.
  - lia.
Qed.

Lemma record_shape_witness :
  In line_C2 (corpus_of [doc_C]) /\
  occurs (Content line_C2) (Full_Page_Text line_C2) /\
  ~ In 10%N (Content line_C2) /\
  Full_Page_Text line_C2 <> [] /\
  1 <= Page line_C2.
Proof.
  assert (H : In line_C2 (corpus_of [doc_C])).
  { vm_compute. right; left; reflexivity. }
  split; [exact H|].
  exact (record_shape [doc_C] line_C2 H).
Defined.

(** ** Corpus Builder: reading order *)

Lemma StronglySorted_app {A : Type} (R : A -> A -> Prop) (l1 l2 : list A) :
  StronglySorted R l1 -> StronglySorted R l2 ->
  (forall a b, In a l1 -> In b l2 -> R a b) ->
  StronglySorted R (l1 ++ l2).
Proof.
  induction 1 as [|x l1 Hs IH Hx]; intros H2 Hc; simpl; [exact H2|].
  constructor.
  - apply IH; [exact H2|]. intros a b Ha Hb. apply Hc; [now right | exact Hb].
  - apply Forall_app. split; [exact Hx|].
    apply Forall_forall. intros b Hb. apply Hc; [now left | exact Hb].
Qed.

Lemma StronglySorted_before {A : Type} (R : A -> A -> Prop) (a b : A)
    (l : list A) :
  StronglySorted R l -> before a b l -> R a b.
Proof.
  intros Hs [l1 [l2 [l3 ->]]]. induction l1 as [|h l1 IH]; simpl in Hs.
  - apply StronglySorted_inv in Hs as [_ Hs].
    rewrite Forall_forall in Hs. apply Hs.
    apply in_or_app. right. now left.
  - apply StronglySorted_inv in Hs as [Hs _]. now apply IH.
Qed.

Lemma before_app_cases {A : Type} (a b : A) (l1 l2 : list A) :
  before a b (l1 ++ l2) ->
  before a b l1 \/ before a b l2 \/ (In a l1 /\ In b l2).
Proof.
  induction l1 as [|h t IH]; intros H.
  - right; left. exact H.
  - destruct H as [x1 [x2 [x3 H]]]. destruct x1 as [|h' x1]; simpl in H.
    + injection H as -> H.
      assert (Hb : In b (t ++ l2)).
      { rewrite H. apply in_or_app. right. now left. }
      apply in_app_or in Hb as [Hb | Hb].
      * left. apply in_split in Hb as [p [q ->]]. now exists [], p, q.
      * right; right. split; [now left | exact Hb].
    + injection H as -> H.
      destruct IH as [[y1 [y2 [y3 ->]]] | [Hb | [Ha Hb]]].
      * now exists x1, x2, x3.
      * left. now exists (h' :: y1), y2, y3.
      * right; left. exact Hb.
      * right; right. split; [now right | exact Hb].
Qed.

Lemma append_lines_sorted fn p text (l : list str) : forall k,
  StronglySorted position_lt
    (append_lines fn p text (enumerate_from k l) []) /\
  Forall (fun r => Page r = p /\ k <= Line_Index r)
    (append_lines fn p text (enumerate_from k l) []).
Proof.
  induction l as [|x l IH]; intros k; simpl.
  - split; constructor.
  - destruct (IH (S k)) as [Hs Hf].
    assert (Hf' : Forall (fun r => Page r = p /\ k <= Line_Index r)
                    (append_lines fn p text (enumerate_from (S k) l) [])).
    { eapply Forall_impl; [|exact Hf]. simpl. intros r [H1 H2]. split; lia. }
    destruct (truthy (strip x)); [|now split].
    rewrite append_lines_app. simpl. split.
    + constructor; [exact Hs|].
      eapply Forall_impl; [|exact Hf]. intros r [H1 H2].
      right. simpl. split; [now symmetry | lia].
    + constructor; [simpl; split; lia | exact Hf'].
Qed.

Lemma parse_pages_sorted fn (pages : list page_extract) : forall i,
  StronglySorted position_lt (fst (parse_pages fn i pages [])) /\
  Forall (fun r => i + 1 <= Page r) (fst (parse_pages fn i pages [])).
Proof.
  induction pages as [|pg pages IH]; intros i; simpl.
  - split; constructor.
  - destruct (IH (S i)) as [Hs Hf].
    assert (Hf' : Forall (fun r => i + 1 <= Page r)
                    (fst (parse_pages fn (S i) pages []))).
    { eapply Forall_impl; [|exact Hf]. simpl. intros r H. lia. }
    destruct pg as [t | | e]; simpl; try (split; [exact Hs | exact Hf']).
    + destruct (truthy t); [|split; [exact Hs | exact Hf']].
      rewrite parse_pages_app. simpl.
      destruct (append_lines_sorted fn (i + 1) t (split_on is_newline t) 0)
        as [Ha Hb].
      fold (enumerate (split_on is_newline t)) in Ha, Hb.
      rewrite Forall_forall in Hb, Hf. split.
      * apply StronglySorted_app; auto.
        intros a b Ha' Hb'. left.
        destruct (Hb a Ha') as [Hpa _]. specialize (Hf b Hb'). lia.
      * apply Forall_app. split; [|exact Hf'].
        apply Forall_forall. intros r Hr. destruct (Hb r Hr) as [Hp _]. lia.
    + split; constructor.
Qed.

Lemma parse_file_sorted (f : UploadedFile) :
  StronglySorted position_lt (fst (parse_file f [])).
Proof.
  unfold parse_file. destruct (reader f); [constructor|].
  apply parse_pages_sorted.
Qed.

Lemma reached_line_File (f : UploadedFile) (r : LineRecord) :
  reached_line f r -> File r = name f.
Proof.
  intros [pages [j [text [idx [line [_ [_ [_ [_ [_ ->]]]]]]]]]]. reflexivity.
Qed.

Lemma corpus_File (files : list UploadedFile) (r : LineRecord) :
  In r (corpus_of files) -> In (File r) (map name files).
Proof.
  intros H. apply corpus_reached in H as [f [Hf H]].
  rewrite (reached_line_File H). now apply in_map.
Qed.

Lemma corpus_before_position (files : list UploadedFile) (a b : LineRecord) :
  NoDup (map name files) ->
  before a b (corpus_of files) -> File a = File b ->
  position_lt a b.
Proof.
  induction files as [|f rest IH]; intros Hnd Hb Hab.
  - destruct Hb as [l1 [l2 [l3 H]]]. destruct l1; discriminate.
  - inversion Hnd as [|? ? Hnot Hnd']; subst.
    rewrite corpus_of_cons in Hb.
    apply before_app_cases in Hb as [Hb | [Hb | [Ha Hb]]].
    + eapply StronglySorted_before; [apply parse_file_sorted | exact Hb].
    + now apply IH.
    + exfalso. apply Hnot.
      apply in_parse_file, reached_line_File in Ha.
      apply corpus_File in Hb. now rewrite <- Ha, Hab.
Qed.

(** X5. In a corpus built from documents with pairwise distinct names, the
    records of one document stand in reading order: of two of them, the
    earlier one is on an earlier page, or on the same page at a smaller line
    index; so page numbers never decrease within a document. *)
Theorem corpus_order (files : list UploadedFile) (a b : LineRecord) :
  NoDup (map name files) ->
  before a b (corpus_of files) -> File a = File b ->
  position_lt a b /\ Page a <= Page b.
Proof.
  intros Hnd Hb Hab.
  pose proof (corpus_before_position files Hnd Hb Hab) as H.
  split; [exact H|]. destruct H as [H | [H _]]; lia.
Qed.

Lemma corpus_order_witness :
  NoDup (map name [doc_C; doc_A]) /\
  before line_C1 line_C2 (corpus_of [doc_C; doc_A]) /\
  File line_C1 = File line_C2 /\
  position_lt line_C1 line_C2 /\ Page line_C1 <= Page line_C2.
Proof.
  assert (Hnd : NoDup (map name [doc_C; doc_A])).
  { repeat constructor; simpl; intuition discriminate. }
  assert (Hb : before line_C1 line_C2 (corpus_of [doc_C; doc_A])).
  { exists [], [], [line_A]. reflexivity. }
  split; [exact Hnd|]. split; [exact Hb|]. split; [reflexivity|].
  exact (corpus_order [doc_C; doc_A] Hnd Hb eq_refl).
Defined.

(** ** Checklist: the keys of the checkboxes *)

Lemma str_of_uint_inj (u : Decimal.uint) : forall v,
  str_of_uint u = str_of_uint v -> u = v.
Proof.
  induction u; intros v H; destruct v; simpl in H;
    try discriminate; try reflexivity;
    injection H as H; f_equal; auto.
Qed.

Lemma str_int_inj (n m : nat) : str_int n = str_int m -> n = m.
Proof.
  unfold str_int. intros H. apply str_of_uint_inj in H.
  rewrite <- (DecimalNat.Unsigned.of_to n), <- (DecimalNat.Unsigned.of_to m).
  now rewrite H.
Qed.

Lemma str_of_uint_digits (u : Decimal.uint) :
  Forall (fun c => is_digit c = true) (str_of_uint u).
Proof. induction u; simpl; constructor; auto. Qed.

Lemma str_int_no_underscore (n : nat) : ~ In underscore (str_int n).
Proof.
  intros H. pose proof (str_of_uint_digits (Nat.to_uint n)) as Hd.
  rewrite Forall_forall in Hd. specialize (Hd _ H). discriminate.
Qed.

Lemma first_sep_unique {A : Type} (x : A) (u : list A) : forall u' v v',
  u ++ x :: v = u' ++ x :: v' -> ~ In x u -> ~ In x u' ->
  u = u' /\ v = v'.
Proof.
  induction u as [|a u IH]; intros [|a' u'] v v' H Hu Hu'; simpl in *.
  - injection H as ->. auto.
  - injection H as <- _. exfalso. apply Hu'. now left.
  - injection H as -> _. exfalso. apply Hu. now left.
  - injection H as -> H.
    destruct (IH u' v v' H) as [-> ->]; auto.
Qed.

Lemma last_sep_unique {A : Type} (x : A) (a a' b b' : list A) :
  a ++ x :: b = a' ++ x :: b' -> ~ In x b -> ~ In x b' ->
  a = a' /\ b = b'.
Proof.
  intros H Hb Hb'. apply (f_equal (@rev A)) in H.
  rewrite !rev_app_distr in H. simpl in H. rewrite <- !app_assoc in H.
  simpl in H. apply first_sep_unique in H as [H1 H2].
  - apply (f_equal (@rev A)) in H1, H2.
    rewrite !rev_involutive in H1, H2. auto.
  - now rewrite <- in_rev.
  - now rewrite <- in_rev.
Qed.

Lemma checkbox_key_fields (r1 r2 : LineRecord) :
  checkbox_key r1 = checkbox_key r2 ->
  File r1 = File r2 /\ Page r1 = Page r2 /\ Line_Index r1 = Line_Index r2.
Proof.
  unfold checkbox_key. change (py "_") with [underscore]. simpl app.
  intros H.
  assert (H' : (File r1 ++ underscore :: str_int (Page r1)) ++
               underscore :: str_int (Line_Index r1) =
               (File r2 ++ underscore :: str_int (Page r2)) ++
               underscore :: str_int (Line_Index r2)).
  { rewrite <- !app_assoc. exact H. }
  apply last_sep_unique in H' as [H1 H2]; try apply str_int_no_underscore.
  apply last_sep_unique in H1 as [H0 H1]; try apply str_int_no_underscore.
  repeat split; auto using str_int_inj.
Qed.

(** X6. Two checkboxes have the same key exactly when they were built from
    the same file, page and line index, whatever characters the file name
    holds. *)
Theorem checkbox_key_inj (r1 r2 : LineRecord) :
  checkbox_key r1 = checkbox_key r2 <->
  File r1 = File r2 /\ Page r1 = Page r2 /\ Line_Index r1 = Line_Index r2.
Proof.
  split.
  - apply checkbox_key_fields.
  - intros [Hf [Hp Hl]]. unfold checkbox_key. now rewrite Hf, Hp, Hl.
Qed.

Lemma NoDup_map_before {A B : Type} (f : A -> B) (l : list A) :
  (forall a b, before a b l -> f a <> f b) -> NoDup (map f l).
Proof.
  induction l as [|x l IH]; intros H; simpl; constructor.
  - intros Hin. apply in_map_iff in Hin as [y [Hy Hin]].
    apply in_split in Hin as [p [q ->]].
    apply (H x y); [now exists [], p, q | now symmetry].
  - apply IH. intros a b [l1 [l2 [l3 ->]]].
    apply H. now exists (x :: l1), l2, l3.
Qed.

(** X7. In a corpus built from documents with pairwise distinct names no two
    records share file, page and line index, so the checkboxes of the
    checklist all have different keys. *)
Theorem checkbox_keys_distinct (files : list UploadedFile) :
  NoDup (map name files) ->
  NoDup (map (fun r => (File r, Page r, Line_Index r)) (corpus_of files)) /\
  NoDup (map checkbox_key (corpus_of files)).
Proof.
  intros Hnd.
  assert (Hpos : forall a b, before a b (corpus_of files) ->
            (File a, Page a, Line_Index a) <> (File b, Page b, Line_Index b)).
  { intros a b Hb Heq. injection Heq as Hf Hp Hl.
    destruct (corpus_before_position files Hnd Hb Hf) as [H | [_ H]]; lia. }
  split.
  - now apply NoDup_map_before.
  - apply NoDup_map_before. intros a b Hb Heq.
    apply checkbox_key_fields in Heq as [Hf [Hp Hl]].
    apply (Hpos a b Hb). congruence.
Qed.

Lemma checkbox_keys_distinct_witness :
  NoDup (map name [doc_C; doc_A]) /\
  NoDup (map (fun r => (File r, Page r, Line_Index r))
           (corpus_of [doc_C; doc_A])) /\
  NoDup (map checkbox_key (corpus_of [doc_C; doc_A])).
Proof.
  assert (Hnd : NoDup (map name [doc_C; doc_A])).
  { repeat constructor; simpl; intuition discriminate. }
  split; [exact Hnd|].
  exact (checkbox_keys_distinct [doc_C; doc_A] Hnd).
Defined.

(** ** The rows of one document *)

Lemma filter_all {A : Type} (P : A -> bool) (l : list A) :
  (forall x, In x l -> P x = true) -> filter P l = l.
Proof.
  induction l as [|x l IH]; intros H; simpl; [reflexivity|].
  rewrite (H x (or_introl eq_refl)). f_equal. apply IH.
  intros y Hy. apply H. now right.
Qed.

Lemma filter_none {A : Type} (P : A -> bool) (l : list A) :
  (forall x, In x l -> P x = false) -> filter P l = [].
Proof.
  induction l as [|x l IH]; intros H; simpl; [reflexivity|].
  rewrite (H x (or_introl eq_refl)). apply IH.
  intros y Hy. apply H. now right.
Qed.

Lemma filter_comm {A : Type} (P Q : A -> bool) (l : list A) :
  filter P (filter Q l) = filter Q (filter P l).
Proof.
  induction l as [|x l IH]; simpl; [reflexivity|].
  destruct (P x) eqn:Ep, (Q x) eqn:Eq; simpl; rewrite ?Ep, ?Eq, IH; reflexivity.
Qed.

Lemma str_eqb_false (a b : str) : str_eqb a b = false <-> a <> b.
Proof.
  rewrite <- str_eqb_spec. destruct (str_eqb a b); split; congruence.
Qed.

Lemma file_rows_corpus (files : list UploadedFile) (f : UploadedFile) :
  NoDup (map name files) -> In f files ->
  file_rows (corpus_of files) (name f) = fst (parse_file f []).
Proof.
  unfold file_rows. induction files as [|g rest IH]; intros Hnd Hf; [easy|].
  inversion Hnd as [|? ? Hnot Hnd']; subst.
  rewrite corpus_of_cons, filter_app. destruct Hf as [-> | Hf].
  - rewrite filter_all, filter_none.
    + apply app_nil_r.
    + intros r Hr. apply str_eqb_false. intros E. apply Hnot.
      rewrite <- E. now apply corpus_File.
    + intros r Hr. apply str_eqb_spec.
      now apply in_parse_file, reached_line_File in Hr.
  - rewrite filter_none.
    + simpl. now apply IH.
    + intros r Hr. apply str_eqb_false. intros E. apply Hnot.
      apply in_parse_file, reached_line_File in Hr.
      rewrite <- Hr, E. now apply in_map.
Qed.

(** ** Reader *)

Lemma page_content_none (df : DataFrame) (f : str) (p : nat) :
  page_content df f p = None <->
  forall r, In r df -> File r = f -> Page r <> p.
Proof.
  unfold page_content, file_rows. split.
  - intros H r Hr Hf Hp.
    assert (Hin : In r (filter (fun row => Page row =? p)
                          (filter (fun row => str_eqb (File row) f) df))).
    { apply filter_In. split; [|now apply Nat.eqb_eq].
      apply filter_In. split; [exact Hr | now apply str_eqb_spec]. }
    destruct (filter _ (filter _ df)); [easy | discriminate].
  - intros H. rewrite filter_none; [reflexivity|].
    intros r Hr. apply filter_In in Hr as [Hr Hf].
    apply str_eqb_spec in Hf. apply Nat.eqb_neq. now apply H.
Qed.

Lemma page_content_some (df : DataFrame) (f : str) (p : nat) (t : str) :
  page_content df f p = Some t ->
  exists r, In r (file_rows df f) /\ Page r = p /\ Full_Page_Text r = t.
Proof.
  unfold page_content. intros H.
  destruct (filter (fun row => Page row =? p) (file_rows df f))
    as [|r rest] eqn:E; [discriminate|].
  injection H as <-.
  assert (Hin : In r (filter (fun row => Page row =? p) (file_rows df f))).
  { rewrite E. now left. }
  apply filter_In in Hin as [Hin Hp]. apply Nat.eqb_eq in Hp.
  now exists r.
Qed.

(** X8. With pairwise distinct document names, what the Reader shows for a
    page of a document is the text extracted for that page; and the lookup
    fails exactly for the pages that gave no record, such as pages without
    text. *)
Theorem reader_page_text (files : list UploadedFile) (f : UploadedFile)
    (pages : list page_extract) (p : nat) :
  NoDup (map name files) -> In f files -> reader f = Readable pages ->
  (forall t, page_content (corpus_of files) (name f) p = Some t ->
     1 <= p /\ nth_error pages (p - 1) = Some (ExtractText t)) /\
  (page_content (corpus_of files) (name f) p = None <->
   forall r, reached_line f r -> Page r <> p).
Proof.
  intros Hnd Hf Hr. split.
  - intros t H. apply page_content_some in H as [r [Hin [Hp Ht]]].
    rewrite (file_rows_corpus _ _ Hnd Hf) in Hin.
    apply in_parse_file in Hin.
    destruct Hin as [pages' [j [text [idx [line [Hr' [Hj [_ [_ [_ ->]]]]]]]]]].
    simpl in *. rewrite Hr in Hr'. injection Hr' as <-. subst p text.
    split; [lia|]. now replace (j + 1 - 1) with j by lia.
  - rewrite page_content_none. split.
    + intros H r Hreach. apply H.
      * now apply reached_corpus with f.
      * now apply reached_line_File.
    + intros H r Hin Hfile. apply H.
      apply in_parse_file. rewrite <- (file_rows_corpus _ _ Hnd Hf).
      apply filter_In. split; [exact Hin | now apply str_eqb_spec].
Qed.

Lemma reader_page_text_witness :
  NoDup (map name [doc_A; doc_C]) /\ In doc_C [doc_A; doc_C] /\
  reader doc_C =
    Readable [ExtractText (py "Dopamine release"); ExtractText (py "axb")] /\
  (forall t, page_content (corpus_of [doc_A; doc_C]) (name doc_C) 2 = Some t ->
     1 <= 2 /\
     nth_error [ExtractText (py "Dopamine release"); ExtractText (py "axb")]
       (2 - 1) = Some (ExtractText t)) /\
  (page_content (corpus_of [doc_A; doc_C]) (name doc_C) 2 = None <->
   forall r, reached_line doc_C r -> Page r <> 2).
Proof.
  assert (Hnd : NoDup (map name [doc_A; doc_C])).
  { repeat constructor; simpl; intuition discriminate. }
  assert (Hin : In doc_C [doc_A; doc_C]) by (right; left; reflexivity).
  split; [exact Hnd|]. split; [exact Hin|]. split; [reflexivity|].
  exact (@reader_page_text [doc_A; doc_C] doc_C _ 2 Hnd Hin eq_refl).
Defined.

Lemma fold_max_ge_init (l : list nat) : forall init,
  init <= fold_left Nat.max l init.
Proof.
  induction l as [|x l IH]; intros init; simpl; [lia|].
  specialize (IH (Nat.max init x)). lia.
Qed.

Lemma fold_max_ge_elem (l : list nat) : forall init x,
  In x l -> x <= fold_left Nat.max l init.
Proof.
  induction l as [|y l IH]; intros init x; simpl; [easy|].
  intros [-> | H].
  - pose proof (fold_max_ge_init l (Nat.max init x)). lia.
  - now apply IH.
Qed.

Lemma fold_max_attained (l : list nat) : forall init,
  fold_left Nat.max l init = init \/ In (fold_left Nat.max l init) l.
Proof.
  induction l as [|y l IH]; intros init; simpl; [now left|].
  destruct (IH (Nat.max init y)) as [H | H]; [|now right; right].
  rewrite H. destruct (Nat.max_spec init y) as [[_ E] | [_ E]]; rewrite E.
  - right; now left.
  - now left.
Qed.

(** X9. For a document that has a row, the last page the Reader offers is the
    highest page number among the document's rows: that page can be shown, no
    row of the document lies beyond it, and every page number beyond it would
    fail. *)
Theorem reader_page_range (df : DataFrame) (f : str) (r0 : LineRecord) :
  In r0 df -> File r0 = f ->
  exists m,
    max_page (file_rows df f) = Some m /\
    (forall r, In r df -> File r = f -> Page r <= m) /\
    page_content df f m <> None /\
    (forall p, m < p -> page_content df f p = None).
Proof.
  intros H0 Hf0.
  assert (Hrows : forall r, In r (file_rows df f) <-> In r df /\ File r = f).
  { intros r. unfold file_rows. now rewrite filter_In, str_eqb_spec. }
  destruct (file_rows df f) as [|row rest] eqn:E.
  - exfalso. apply (proj2 (Hrows r0)); auto.
  - set (m := fold_left Nat.max (map Page rest) (Page row)).
    assert (Hle : forall r, In r df -> File r = f -> Page r <= m).
    { intros r Hr Hf. destruct (proj2 (Hrows r) (conj Hr Hf)) as [<- | Hin].
      - apply fold_max_ge_init.
      - apply fold_max_ge_elem. now apply in_map. }
    exists m. repeat split; auto.
    + rewrite page_content_none. intros H.
      destruct (fold_max_attained (map Page rest) (Page row)) as [Hm | Hm];
        fold m in Hm.
      * destruct (proj1 (Hrows row) (or_introl eq_refl)) as [Hr Hf].
        now apply (H row Hr Hf).
      * apply in_map_iff in Hm as [r [Hp Hin]].
        destruct (proj1 (Hrows r) (or_intror Hin)) as [Hr Hf].
        now apply (H r Hr Hf).
    + intros p Hp. apply page_content_none. intros r Hr Hf.
      specialize (Hle r Hr Hf). lia.
Qed.

Lemma reader_page_range_witness :
  In line_C1 (corpus_of [doc_A; doc_C]) /\
  File line_C1 = py "C.pdf" /\
  exists m,
    max_page (file_rows (corpus_of [doc_A; doc_C]) (py "C.pdf")) = Some m /\
    (forall r, In r (corpus_of [doc_A; doc_C]) -> File r = py "C.pdf" ->
               Page r <= m) /\
    page_content (corpus_of [doc_A; doc_C]) (py "C.pdf") m <> None /\
    (forall p, m < p ->
               page_content (corpus_of [doc_A; doc_C]) (py "C.pdf") p = None).
Proof.
  assert (H : In line_C1 (corpus_of [doc_A; doc_C])).
  { vm_compute. right; left; reflexivity. }
  split; [exact H|]. split; [reflexivity|].
  exact (@reader_page_range (corpus_of [doc_A; doc_C]) (py "C.pdf") line_C1
           H eq_refl).
Defined.

(** ** Checklist *)

(** X10. With pairwise distinct document names, narrowing the checklist to a
    document (not named ["All"]) gives the action items of that document read
    alone, in the same order; the entry ["All"] gives the action items of
    the whole corpus. *)
Theorem checklist_of_source (files : list UploadedFile) (f : UploadedFile) :
  NoDup (map name files) -> In f files -> name f <> py "All" ->
  checklist (corpus_of files) (name f) = extract_action_items (corpus_of [f]) /\
  checklist (corpus_of files) (py "All") =
    extract_action_items (corpus_of files).
Proof.
  intros Hnd Hf Hall. split; [|reflexivity].
  unfold checklist. apply str_eqb_false in Hall. rewrite Hall. cbn [negb].
  unfold extract_action_items. rewrite filter_comm.
  fold (file_rows (corpus_of files) (name f)).
  rewrite (file_rows_corpus _ _ Hnd Hf).
  now rewrite corpus_of_cons, app_nil_r.
Qed.

Lemma checklist_of_source_witness :
  NoDup (map name [doc_A; doc_C]) /\ In doc_C [doc_A; doc_C] /\
  name doc_C <> py "All" /\
  checklist (corpus_of [doc_A; doc_C]) (name doc_C) =
    extract_action_items (corpus_of [doc_C]) /\
  checklist (corpus_of [doc_A; doc_C]) (py "All") =
    extract_action_items (corpus_of [doc_A; doc_C]).
Proof.
  assert (Hnd : NoDup (map name [doc_A; doc_C])).
  { repeat constructor; simpl; intuition discriminate. }
  assert (Hin : In doc_C [doc_A; doc_C]) by (right; left; reflexivity).
  assert (Hall : name doc_C <> py "All") by discriminate.
  split; [exact Hnd|]. split; [exact Hin|]. split; [exact Hall|].
  exact (@checklist_of_source [doc_A; doc_C] doc_C Hnd Hin Hall).
Defined.

(** ** Action Classifier: the case of the content *)

Lemma eq_nocase_split (c' : str) (w rest : str) :
  str_lower c' = str_lower (w ++ rest) ->
  exists w' rest', c' = w' ++ rest' /\ str_lower w' = str_lower w /\
                   str_lower rest' = str_lower rest.
Proof.
  unfold str_lower. rewrite map_app. intros H.
  apply map_eq_app in H as [w' [rest' [-> [H1 H2]]]]. now exists w', rest'.
Qed.

Lemma lower_cp_digit (x d : codepoint) :
  is_digit d = true -> lower_cp x = lower_cp d -> x = d.
Proof.
  unfold is_digit. rewrite andb_true_iff, !N.leb_le. intros [H1 H2].
  unfold lower_cp. cases_on_ranges; lia.
Qed.

Lemma lower_cp_glyph (x g : codepoint) :
  (123 <= g)%N -> lower_cp x = lower_cp g -> x = g.
Proof. intros Hg. unfold lower_cp. cases_on_ranges; lia. Qed.

Lemma begins_nocase_fold (m c c' : str) :
  eq_nocase c' c -> begins_nocase m c -> begins_nocase m c'.
Proof.
  unfold eq_nocase, begins_nocase. intros E [w [rest [-> Hw]]].
  apply eq_nocase_split in E as [w' [rest' [-> [H1 _]]]].
  exists w', rest'. split; [reflexivity | congruence].
Qed.

Lemma begins_numbered_fold (m c c' : str) :
  eq_nocase c' c -> begins_numbered m c -> begins_numbered m c'.
Proof.
  unfold eq_nocase, begins_numbered. intros E [w [d [rest [-> [Hw Hd]]]]].
  apply eq_nocase_split in E as [w' [rest' [-> [H1 H2]]]].
  destruct rest' as [|d' rest']; [discriminate|].
  simpl in H2. injection H2 as Hd' _.
  apply (@lower_cp_digit d' d Hd) in Hd'. subst d'.
  exists w', d, rest'. repeat split; congruence.
Qed.

Lemma begins_glyph_fold (g : codepoint) (c c' : str) :
  (123 <= g)%N -> eq_nocase c' c -> begins_glyph g c -> begins_glyph g c'.
Proof.
  unfold eq_nocase, begins_glyph. intros Hg E [rest ->].
  destruct c' as [|g' rest']; [discriminate|].
  simpl in E. injection E as Hg' _.
  apply (@lower_cp_glyph g' g Hg) in Hg'. subst g'. now exists rest'.
Qed.

Lemma begins_with_marker_fold (c c' : str) :
  eq_nocase c' c -> begins_with_marker c -> begins_with_marker c'.
Proof.
  intros E. unfold begins_with_marker.
  intros [H | [H | [H | [H | [H | [H | [H | H]]]]]]].
  - left. eapply begins_numbered_fold; eauto.
  - right; left. eapply begins_nocase_fold; eauto.
  - do 2 right; left. eapply begins_glyph_fold; eauto. glyph_bound.
  - do 3 right; left. eapply begins_glyph_fold; eauto. glyph_bound.
  - do 4 right; left. eapply begins_glyph_fold; eauto. glyph_bound.
  - do 5 right; left. eapply begins_glyph_fold; eauto. glyph_bound.
  - do 6 right; left. eapply begins_numbered_fold; eauto.
  - do 7 right. eapply begins_nocase_fold; eauto.
Qed.

(** X11. Whether a line is an action item does not depend on the case of its
    letters: two contents that are equal up to case are classified alike. *)
Theorem is_action_nocase (c c' : str) :
  eq_nocase c c' -> is_action c = is_action c'.
Proof.
  intros E.
  destruct (is_action c) eqn:Ec, (is_action c') eqn:Ec'; try reflexivity.
  - apply is_action_spec in Ec.
    apply (begins_with_marker_fold (c' := c')) in Ec; [|now symmetry].
    apply is_action_spec in Ec. congruence.
  - apply is_action_spec in Ec'.
    apply (begins_with_marker_fold (c' := c)) in Ec'; [|exact E].
    apply is_action_spec in Ec'. congruence.
Qed.

Lemma is_action_nocase_witness :
  eq_nocase (py "STEP 2: breathe") (py "step 2: Breathe") /\
  is_action (py "STEP 2: breathe") = is_action (py "step 2: Breathe").
Proof.
  assert (H : eq_nocase (py "STEP 2: breathe") (py "step 2: Breathe"))
    by reflexivity.
  split; [exact H|].
  exact (@is_action_nocase (py "STEP 2: breathe") (py "step 2: Breathe") H).
Defined.

(** ** Substring Search: narrowing and case of the query *)

Lemma occurs_nocase_narrow (q1 q2 c : str) :
  occurs q1 q2 -> occurs_nocase q2 c -> occurs_nocase q1 c.
Proof.
  intros [a [b ->]] [u [m [v [-> Hm]]]]. unfold eq_nocase in Hm.
  apply eq_nocase_split in Hm as [ma [m' [-> [_ Hm]]]].
  apply eq_nocase_split in Hm as [m1 [mb [-> [Hm1 _]]]].
  exists (u ++ ma), m1, (mb ++ v).
  split; [now rewrite <- !app_assoc | exact Hm1].
Qed.

Lemma filter_filter_implies {A : Type} (P Q : A -> bool) (l : list A) :
  (forall x, Q x = true -> P x = true) ->
  filter Q (filter P l) = filter Q l.
Proof.
  intros H. induction l as [|x l IH]; simpl; [reflexivity|].
  destruct (P x) eqn:Ep; simpl.
  - now rewrite IH.
  - destruct (Q x) eqn:Eq; [|exact IH].
    apply H in Eq. congruence.
Qed.

(** X12. Lengthening a query narrows the search: when the query [q1] is a
    part of the query [q2], every line found for [q2] is found for [q1], and
    searching [q2] within the lines found for [q1] gives what searching [q2]
    in the whole corpus gives. *)
Theorem search_narrows (df : DataFrame) (q1 q2 : str) :
  q1 <> [] -> occurs q1 q2 ->
  (forall r, In r (search df q2) -> In r (search df q1)) /\
  search (search df q1) q2 = search df q2.
Proof.
  intros H1 Hocc.
  assert (H2 : q2 <> []).
  { intros ->. apply occurs_length in Hocc. destruct q1; [congruence|].
    simpl in Hocc. lia. }
  assert (Himp : forall r : LineRecord,
            str_contains_literal false q2 (Content r) = true ->
            str_contains_literal false q1 (Content r) = true).
  { intros r H. apply str_contains_nocase_spec.
    apply str_contains_nocase_spec in H.
    eapply occurs_nocase_narrow; eauto. }
  rewrite !(search_nonempty _ H1), !(search_nonempty _ H2). split.
  - intros r Hr. apply filter_In in Hr as [Hr Hc].
    apply filter_In. auto.
  - now apply filter_filter_implies.
Qed.

Lemma search_narrows_witness :
  py "dopa" <> [] /\ occurs (py "dopa") (py "dopamine") /\
  (forall r, In r (search (corpus_of [doc_A; doc_C]) (py "dopamine")) ->
             In r (search (corpus_of [doc_A; doc_C]) (py "dopa"))) /\
  search (search (corpus_of [doc_A; doc_C]) (py "dopa")) (py "dopamine") =
    search (corpus_of [doc_A; doc_C]) (py "dopamine").
Proof.
  assert (H1 : py "dopa" <> []) by discriminate.
  assert (H2 : occurs (py "dopa") (py "dopamine")).
  { exists [], (py "mine"). reflexivity. }
  split; [exact H1|]. split; [exact H2|].
  exact (@search_narrows (corpus_of [doc_A; doc_C]) _ _ H1 H2).
Defined.

(** X13. The case of the query's letters changes neither the lines found nor
    the ranking: two queries that are equal up to case give the same search
    result and the same ranking. *)
Theorem query_case_irrelevant (df : DataFrame) (q q' : str) :
  eq_nocase q q' ->
  search df q = search df q' /\ rank df q = rank df q'.
Proof.
  intros E. unfold eq_nocase in E.
  assert (Ht : truthy q = truthy q').
  { destruct q, q'; try reflexivity; discriminate. }
  split.
  - unfold search, str_contains_literal. rewrite Ht.
    now rewrite (proj2 (str_upper_eq_lower_eq q q') E).
  - unfold rank. now rewrite Ht, E.
Qed.

Lemma query_case_irrelevant_witness :
  eq_nocase (py "DOPAMINE Habit") (py "dopamine habit") /\
  search (corpus_of [doc_A; doc_C]) (py "DOPAMINE Habit") =
    search (corpus_of [doc_A; doc_C]) (py "dopamine habit") /\
  rank (corpus_of [doc_A; doc_C]) (py "DOPAMINE Habit") =
    rank (corpus_of [doc_A; doc_C]) (py "dopamine habit").
Proof.
  assert (H : eq_nocase (py "DOPAMINE Habit") (py "dopamine habit"))
    by reflexivity.
  split; [exact H|].
  exact (@query_case_irrelevant (corpus_of [doc_A; doc_C]) _ _ H).
Defined.

(** ** Relevance Scorer: the query as a bag of words *)

Lemma split_scan_app (sp : codepoint) (b : str) (a : str) : forall cur,
  isspace sp = true ->
  split_scan cur (a ++ sp :: b) = split_scan cur a ++ split_scan [] b.
Proof.
  induction a as [|c a IH]; intros cur Hsp; simpl.
  - rewrite Hsp. destruct (truthy cur); reflexivity.
  - destruct (isspace c).
    + destruct (truthy cur); simpl; now rewrite IH.
    + now apply IH.
Qed.

Lemma str_split_app (a b : str) (sp : codepoint) :
  isspace sp = true ->
  str_split (str_lower (a ++ sp :: b)) =
  str_split (str_lower a) ++ str_split (str_lower b).
Proof.
  intros Hsp. unfold str_split, str_lower. rewrite map_app. simpl.
  rewrite (lower_cp_space _ Hsp). now apply split_scan_app.
Qed.

Lemma page_score_app (t1 t2 : list str) (text : str) :
  page_score (t1 ++ t2) text = page_score t1 text + page_score t2 text.
Proof. now rewrite !page_score_count, filter_app, length_app. Qed.

Lemma rank_tokens_ext (df : DataFrame) (q q' : str) :
  truthy q = truthy q' ->
  (forall text, page_score (str_split (str_lower q)) text =
                page_score (str_split (str_lower q')) text) ->
  rank df q = rank df q'.
Proof.
  intros Ht H. rewrite !rank_nonempty, Ht.
  destruct (truthy q'); [|reflexivity].
  do 2 f_equal. apply map_ext. intros [[f p] t]. unfold scored.
  now rewrite H.
Qed.

(** X14. The ranking takes the query as a bag of words: exchanging the two
    parts of a query around a whitespace character leaves the ranking as it
    is, and so does whitespace put before or after the query. *)
Theorem rank_word_order (df : DataFrame) (a b : str) (sp : codepoint) :
  isspace sp = true ->
  rank df (a ++ sp :: b) = rank df (b ++ sp :: a) /\
  rank df (sp :: a) = rank df a /\
  rank df (a ++ [sp]) = rank df a.
Proof.
  intros Hsp. split; [|split].
  - apply rank_tokens_ext.
    + destruct a, b; reflexivity.
    + intros text. rewrite !str_split_app, !page_score_app by assumption.
      lia.
  - destruct a as [|c a].
    + apply rank_whitespace. now repeat constructor.
    + apply rank_tokens_ext; [reflexivity|]. intros text.
      change (sp :: c :: a) with ([] ++ sp :: c :: a).
      now rewrite str_split_app.
  - destruct a as [|c a].
    + apply rank_whitespace. now repeat constructor.
    + apply rank_tokens_ext; [reflexivity|]. intros text.
      rewrite str_split_app by assumption. now rewrite app_nil_r.
Qed.

Lemma rank_word_order_witness :
  isspace 32%N = true /\
  rank (corpus_of [doc_A; doc_D]) (py "dopamine" ++ 32%N :: py "habit") =
    rank (corpus_of [doc_A; doc_D]) (py "habit" ++ 32%N :: py "dopamine") /\
  rank (corpus_of [doc_A; doc_D]) (32%N :: py "dopamine") =
    rank (corpus_of [doc_A; doc_D]) (py "dopamine") /\
  rank (corpus_of [doc_A; doc_D]) (py "dopamine" ++ [32%N]) =
    rank (corpus_of [doc_A; doc_D]) (py "dopamine").
Proof.
  split; [reflexivity|].
  exact (@rank_word_order (corpus_of [doc_A; doc_D]) (py "dopamine")
           (py "habit") 32%N eq_refl).
Defined.

(** ** Relevance Scorer: bounds of the score *)




(** ** What the Chat/Query mode displays *)






(** ** One-word queries: search and ranking agree *)



















(** ** Highlighting: what it changes *)













(** ** When no text could be extracted *)

Lemma lstrip_nil (l : str) : lstrip l = [] <-> whitespace_only l.
Proof.
  unfold whitespace_only. induction l as [|c l IH]; simpl.
  - split; [constructor | reflexivity].
  - destruct (isspace c) eqn:E.
    + rewrite IH. split; intros H; [now constructor | now inversion H].
    + split; [discriminate|]. intros H. inversion H; subst. congruence.
Qed.

Lemma strip_nil (l : str) : strip l = [] <-> whitespace_only l.
Proof.
  split.
  - intros H. unfold strip, rstrip in H.
    apply (f_equal (@rev codepoint)) in H. rewrite rev_involutive in H.
    simpl in H. apply lstrip_nil in H. unfold whitespace_only in H.
    apply Forall_rev in H. rewrite rev_involutive in H.
    destruct (lstrip_head l) as [E | [c [rest [E Hc]]]].
    + now apply lstrip_nil.
    + rewrite E in H. inversion H; subst. congruence.
  - intros H. apply lstrip_nil in H. unfold strip. now rewrite H.
Qed.

Lemma whitespace_fields (text : str) :
  whitespace_only text <->
  forall fld, In fld (split_on is_newline text) -> whitespace_only fld.
Proof.
  unfold whitespace_only. split.
  - intros H fld Hin. apply split_on_field_occurs in Hin.
    rewrite Forall_forall in *. intros c Hc. apply H.
    eapply occurs_In; eauto.
  - induction text as [|c text IH]; intros H; [constructor|].
    simpl in H. destruct (is_newline c) eqn:E.
    + constructor.
      * unfold is_newline in E. apply N.eqb_eq in E. now subst c.
      * apply IH. intros fld Hin. apply H. now right.
    + destruct (split_on is_newline text) as [|f fs] eqn:Es.
      * now destruct (split_on_nonempty is_newline text).
      * pose proof (H _ (or_introl eq_refl)) as Hcf. inversion Hcf; subst.
        constructor; [assumption|]. apply IH.
        intros fld [<- | Hin]; [assumption|]. apply H. now right.
Qed.

Lemma corpus_empty (files : list UploadedFile) :
  corpus_of files = [] <->
  forall f j text, In f files -> page_read f j text -> whitespace_only text.
Proof.
  split.
  - intros Hnil f j text Hf [pages [Hr [Hj Hraise]]].
    apply whitespace_fields. intros fld Hin. apply strip_nil.
    destruct (strip fld) eqn:E; [reflexivity|]. exfalso.
    apply In_nth_error in Hin as [idx Hidx].
    assert (Hin : In (mkLine (name f) (j + 1) idx (strip fld) text)
                    (corpus_of files)).
    { apply reached_corpus with f; [exact Hf|].
      exists pages, j, text, idx, fld. repeat split; auto.
      now rewrite E. }
    rewrite Hnil in Hin. exact Hin.
  - intros H. destruct (corpus_of files) as [|r rest] eqn:E; [reflexivity|].
    exfalso.
    assert (Hr : In r (corpus_of files)) by (rewrite E; now left).
    apply corpus_reached in Hr as [f [Hf Hr]].
    destruct Hr as [pages [j [text [idx [line [Hrd [Hj [Hraise [Hl [Ht _]]]]]]]]]].
    assert (Hws : whitespace_only text).
    { apply (H f j text Hf). now exists pages. }
    apply nth_error_In in Hl.
    apply (proj1 (whitespace_fields text) Hws) in Hl.
    apply strip_nil in Hl. rewrite Hl in Ht. discriminate.
Qed.

(** X19. With at least one upload, main stops with the error that no text
    could be extracted exactly when every page that is read holds whitespace
    only or nothing; otherwise it goes on with the non-empty corpus. *)
Theorem startup_without_text (files : list UploadedFile) :
  files <> [] ->
  (main_startup files = CouldNotExtract <->
   forall f j text, In f files -> page_read f j text -> whitespace_only text) /\
  (forall df, main_startup files = Ready df ->
     df = corpus_of files /\ df <> []).
Proof.
  intros Hne. destruct files as [|f0 rest]; [congruence|].
  split.
  - rewrite <- corpus_empty. unfold main_startup.
    destruct (corpus_of (f0 :: rest)); split; congruence.
  - intros df. unfold main_startup.
    destruct (corpus_of (f0 :: rest)); [discriminate|].
    intros H. injection H as <-. split; [reflexivity | discriminate].
Qed.

Lemma startup_without_text_witness :
  [mkUpload (py "scan.pdf") (Readable [ExtractNone; ExtractText (py "  ")])]
    <> [] /\
  (main_startup
     [mkUpload (py "scan.pdf") (Readable [ExtractNone; ExtractText (py "  ")])]
     = CouldNotExtract <->
   forall f j text,
     In f [mkUpload (py "scan.pdf")
             (Readable [ExtractNone; ExtractText (py "  ")])] ->
     page_read f j text -> whitespace_only text) /\
  (forall df,
     main_startup
       [mkUpload (py "scan.pdf")
          (Readable [ExtractNone; ExtractText (py "  ")])] = Ready df ->
     df = corpus_of
            [mkUpload (py "scan.pdf")
               (Readable [ExtractNone; ExtractText (py "  ")])] /\
     df <> []).
Proof.
  assert (H : [mkUpload (py "scan.pdf")
                 (Readable [ExtractNone; ExtractText (py "  ")])] <> [])
    by discriminate.
  split; [exact H|].
  exact (@startup_without_text _ H).
Defined.
